(** * Voice agent audio relay

    A shallow embedding of the Twilio/Deepgram relay of [voice-agent-api]:
    the [TwilioAudioProcessor] class of [src/types/twilio-audio-processor.ts]
    (frame buffer, noise gate, session state) and the per-connection handlers
    of [src/server/voice-agent-server.ts] (function-call dispatch, connection
    timer).  Definitions come first, module by module; the properties follow. *)

From stdpp Require Import gmap strings list.
From Stdlib Require Import ZArith Lia Floats Ascii.
From Stdlib Require Uint63.
From Stdlib.Strings Require Byte.

Local Open Scope nat_scope.

(** ** JavaScript primitives used by the sources *)

Module Js.

(** A configuration field typed [number] holds a double, or [undefined] when
    the caller leaves it out of the object literal. *)
Inductive value : Type :=
| undefined
| number (f : float).

(** ToNumber: [undefined] converts to NaN. *)
Definition ToNumber (v : value) : float :=
  match v with
  | undefined => nan
  | number f => f
  end.

(** [x > y] on numbers; false as soon as one side is NaN. *)
Definition gt (x y : float) : bool := PrimFloat.ltb y x.

(** [x * y] on numbers. *)
Definition mul (x y : float) : float := PrimFloat.mul x y.

(** [Math.max(x, y)]: NaN when an argument is NaN, and [+0] above [-0]. *)
Definition Math_max (x y : float) : float :=
  if PrimFloat.is_nan x || PrimFloat.is_nan y then nan
  else if PrimFloat.ltb x y then y
  else if PrimFloat.ltb y x then x
  else if PrimFloat.is_zero x && PrimFloat.get_sign x then y
  else x.

(** An integer of the code (a length, an amplitude) as a number.  Exact
    below 2^53, which covers every length and 16-bit amplitude. *)
Definition of_Z (z : Z) : float := PrimFloat.of_uint63 (Uint63.of_Z z).

Definition of_nat (n : nat) : float := of_Z (Z.of_nat n).

(** Completion of a call: a value, or a thrown error with the text
    [String(error)] gives for it. *)
Inductive completion (A : Type) : Type :=
| Normal (a : A)
| Throw (err : string).
Arguments Normal {A} a.
Arguments Throw {A} err.

End Js.

(** ** Byte buffers and 16-bit samples *)

Abbreviation byte := Byte.byte.

(** The content of a Node [Buffer]. *)
Abbreviation Bytes := (list byte).

Definition byte_to_Z (b : byte) : Z := Z.of_N (Byte.to_N b).

Definition byte_of_Z (z : Z) : byte :=
  match Byte.of_N (Z.to_N (z mod 256)) with
  | Some b => b
  | None => Byte.x00
  end.

(** A [Buffer] as the typed-array constructor sees it: a view at [byteOffset]
    into its backing store, showing [bytes]. *)
Record NodeBuffer : Type := mkNodeBuffer {
  byteOffset : nat;
  bytes : Bytes
}.

(** One little-endian signed 16-bit sample from its two bytes. *)
Definition int16_of_bytes (lo hi : byte) : Z :=
  let u := (byte_to_Z lo + 256 * byte_to_Z hi)%Z in
  if (u <? 32768)%Z then u else (u - 65536)%Z.

(** The samples an [Int16Array] of [length / 2] elements shows over the
    bytes; the element count is truncated, so a trailing odd byte is not part
    of the view. *)
Fixpoint decodeInt16 (bs : Bytes) : list Z :=
  match bs with
  | lo :: hi :: rest => int16_of_bytes lo hi :: decodeInt16 rest
  | _ => []
  end.

(** The bytes behind an [Int16Array]. *)
Fixpoint encodeInt16 (samples : list Z) : Bytes :=
  match samples with
  | [] => []
  | s :: rest =>
      byte_of_Z (s mod 65536) :: byte_of_Z ((s mod 65536) / 256) :: encodeInt16 rest
  end.

(** [new Int16Array(buf.buffer, buf.byteOffset, buf.length / 2)]: a
    RangeError when the offset is not a multiple of the element size.  The
    length argument goes through ToIndex, which truncates it. *)
Definition Int16Array_view (buf : NodeBuffer) : option (list Z) :=
  if Nat.even (byteOffset buf) then Some (decodeInt16 (bytes buf)) else None.

(** ** The audio processor ([TwilioAudioProcessor]) *)

Module AudioProcessor.

Record TwilioAudioProcessorConfig : Type := mkConfig {
  bufferSize : nat;
  minChunkSize : Js.value;
  noiseThreshold : Js.value
}.

(** [streamSid: string | null]; the [start] handler can also store
    [undefined]. *)
Inductive StreamSid : Type :=
| sid_null
| sid_undefined
| sid_string (s : string).

Record State : Type := mkState {
  inBuffer : list Bytes;
  hasSeenMedia : bool;
  messageCount : nat;
  isProcessingAudio : bool;
  streamSid : StreamSid
}.

(** The constructor. *)
Definition new : State :=
  {| inBuffer := [];
     hasSeenMedia := false;
     messageCount := 0;
     isProcessingAudio := false;
     streamSid := sid_null |}.

(** [getBufferSize]: the reduce over the fragments. *)
Definition getBufferSize (inBuffer : list Bytes) : nat :=
  fold_left (fun total chunk => total + length chunk) inBuffer 0.

(** The counting loop of [extractChunk]: [i] is the loop index and
    [totalSize] the running sum; 0 when the loop ends without a break. *)
Fixpoint countChunks (size totalSize i : nat) (inBuffer : list Bytes) : nat :=
  match inBuffer with
  | [] => 0
  | chunk :: rest =>
      let totalSize := totalSize + length chunk in
      if size <=? totalSize then i + 1
      else countChunks size totalSize (i + 1) rest
  end.

(** [extractChunk(size)]: the returned frame ([None] for [null]) and the
    buffer it leaves. *)
Definition extractChunk (size : nat) (inBuffer : list Bytes)
  : option Bytes * list Bytes :=
  let chunkCount := countChunks size 0 0 inBuffer in
  if chunkCount =? 0 then (None, inBuffer)
  else
    let chunks := firstn chunkCount inBuffer in
    let inBuffer := skipn chunkCount inBuffer in
    let result := concat chunks in
    if size <? length result then
      let excess := skipn size result in
      (Some (firstn size result), excess :: inBuffer)
    else (Some result, inBuffer).

(** [this.inBuffer.push(audioChunk)]. *)
Definition push (inBuffer : list Bytes) (audioChunk : Bytes) : list Bytes :=
  inBuffer ++ [audioChunk].

(** The caller's side of the frame buffer: [extractChunk(size)] again and
    again until it answers [null]; the frames in order and the buffer left.
    [None] when [fuel] calls were not enough to see the [null]. *)
Fixpoint extractAll (fuel size : nat) (inBuffer : list Bytes)
  : option (list Bytes * list Bytes) :=
  match fuel with
  | 0 => None
  | S fuel =>
      match extractChunk size inBuffer with
      | (None, inBuffer) => Some ([], inBuffer)
      | (Some frame, inBuffer) =>
          match extractAll fuel size inBuffer with
          | Some (frames, rest) => Some (frame :: frames, rest)
          | None => None
          end
      end
  end.

(** The first loop of [preprocessAudio]: the running maximum of
    [Math.abs(samples[i])].  Amplitudes are integers up to 32768, so the
    comparison of doubles in the source is the comparison of integers. *)
Definition maxAmplitudeLoop (samples : list Z) : Z :=
  fold_left
    (fun maxAmplitude sample =>
       let amplitude := Z.abs sample in
       if (maxAmplitude <? amplitude)%Z then amplitude else maxAmplitude)
    samples 0%Z.

(** [Math.max(maxAmplitude * threshold, 100)]. *)
Definition gateThresholdOf (threshold : Js.value) (maxAmplitude : Z) : float :=
  Js.Math_max (Js.mul (Js.of_Z maxAmplitude) (Js.ToNumber threshold)) 100%float.

(** The test [amplitude > gateThreshold] of the second loop. *)
Definition aboveGate (gateThreshold : float) (sample : Z) : bool :=
  Js.gt (Js.of_Z (Z.abs sample)) gateThreshold.

(** The second loop: the processed samples and the final value of
    [hasSignificantAudio]. *)
Fixpoint gateLoop (gateThreshold : float) (samples : list Z)
    (hasSignificantAudio : bool) : list Z * bool :=
  match samples with
  | [] => ([], hasSignificantAudio)
  | sample :: rest =>
      if aboveGate gateThreshold sample then
        let '(processed, has) := gateLoop gateThreshold rest true in
        (sample :: processed, has)
      else
        let '(processed, has) := gateLoop gateThreshold rest hasSignificantAudio in
        (0%Z :: processed, has)
  end.

(** [preprocessAudio]: the [try] body, and the [catch] that hands the
    argument back when the sample view cannot be built. *)
Definition preprocessAudio (config : TwilioAudioProcessorConfig)
    (audioBuffer : NodeBuffer) : Bytes :=
  let threshold := noiseThreshold config in
  match Int16Array_view audioBuffer with
  | Some samples =>
      let maxAmplitude := maxAmplitudeLoop samples in
      let gateThreshold := gateThresholdOf threshold maxAmplitude in
      let '(processedSamples, hasSignificantAudio) :=
        gateLoop gateThreshold samples false in
      if negb hasSignificantAudio then []
      else encodeInt16 processedSamples
  | None => bytes audioBuffer
  end.

(** [isValidAudioChunk]. *)
Definition isValidAudioChunk (audioChunk : Bytes) : bool :=
  if length audioChunk <? 20 then false
  else
    existsb (fun b => negb (Byte.eqb b Byte.x00))
      (firstn (Nat.min (length audioChunk) 100) audioChunk).

(** The speech-peer socket as the processor uses it: its [readyState] and
    the binary frames handed to [send], oldest first. *)
Inductive ReadyState : Type := CONNECTING | OPEN | CLOSING | CLOSED.

Record WebSocket : Type := mkWebSocket {
  readyState : ReadyState;
  sent : list Bytes
}.

Definition isDeepgramReady (connection : WebSocket) : bool :=
  match readyState connection with
  | OPEN => true
  | _ => false
  end.

Definition send (connection : WebSocket) (data : Bytes) : WebSocket :=
  {| readyState := readyState connection; sent := sent connection ++ [data] |}.

(** The [while] loop of [handleMediaEvent].  Every iteration that extracts a
    frame shortens the buffer when [bufferSize] is positive, so
    [getBufferSize + 1] rounds of [fuel] are never used up; with
    [bufferSize = 0] the guard never fails, the source loops forever, and
    the result is [None]. *)
Fixpoint drainLoop (fuel : nat) (config : TwilioAudioProcessorConfig)
    (connection : WebSocket) (inBuffer : list Bytes)
  : option (list Bytes * WebSocket) :=
  if getBufferSize inBuffer <? bufferSize config then Some (inBuffer, connection)
  else
    match fuel with
    | 0 => None
    | S fuel =>
        match extractChunk (bufferSize config) inBuffer with
        | (Some chunk, inBuffer) =>
            (* [Buffer.concat] allocates the frame, at an aligned offset *)
            let processedChunk := preprocessAudio config (mkNodeBuffer 0 chunk) in
            if 0 <? length processedChunk then
              if isDeepgramReady connection then
                drainLoop fuel config (send connection processedChunk) inBuffer
              else drainLoop fuel config connection inBuffer
            else drainLoop fuel config connection inBuffer
        | (None, inBuffer) => drainLoop fuel config connection inBuffer
        end
    end.

(** The [media] member of a Twilio event: [track], and [payload] after
    [Buffer.from(payload, 'base64')] ([None] when that call throws, the
    payload not being a string). *)
Record Media : Type := mkMedia {
  track : option string;
  payload : option Bytes
}.

(** A parsed Twilio event, by the members the processor reads:
    [data.event], [data.start?.streamSid] and [data.media]. *)
Record TwilioData : Type := mkData {
  event : string;
  start_streamSid : StreamSid;
  media : option Media
}.

Definition set_inBuffer (st : State) (b : list Bytes) : State :=
  {| inBuffer := b;
     hasSeenMedia := hasSeenMedia st;
     messageCount := messageCount st;
     isProcessingAudio := isProcessingAudio st;
     streamSid := streamSid st |}.

Definition set_hasSeenMedia (st : State) (b : bool) : State :=
  {| inBuffer := inBuffer st;
     hasSeenMedia := b;
     messageCount := messageCount st;
     isProcessingAudio := isProcessingAudio st;
     streamSid := streamSid st |}.

Definition set_messageCount (st : State) (n : nat) : State :=
  {| inBuffer := inBuffer st;
     hasSeenMedia := hasSeenMedia st;
     messageCount := n;
     isProcessingAudio := isProcessingAudio st;
     streamSid := streamSid st |}.

Definition set_isProcessingAudio (st : State) (b : bool) : State :=
  {| inBuffer := inBuffer st;
     hasSeenMedia := hasSeenMedia st;
     messageCount := messageCount st;
     isProcessingAudio := b;
     streamSid := streamSid st |}.

Definition set_streamSid (st : State) (sid : StreamSid) : State :=
  {| inBuffer := inBuffer st;
     hasSeenMedia := hasSeenMedia st;
     messageCount := messageCount st;
     isProcessingAudio := isProcessingAudio st;
     streamSid := sid |}.

(** [data.media?.track === 'inbound']. *)
Definition isInbound (data : TwilioData) : bool :=
  match media data with
  | Some m =>
      match track m with
      | Some t => String.eqb t "inbound"
      | None => false
      end
  | None => false
  end.

(** The [try] block of [handleMediaEvent]; an exception of
    [Buffer.from] is caught and leaves buffer and socket as they were. *)
Definition handleMediaBody (config : TwilioAudioProcessorConfig)
    (m : Media) (connection : WebSocket) (inBuffer : list Bytes)
  : option (list Bytes * WebSocket) :=
  match payload m with
  | None => Some (inBuffer, connection)
  | Some audioChunk =>
      if Js.gt (Js.of_nat (length audioChunk)) (Js.ToNumber (minChunkSize config)) then
        if isValidAudioChunk audioChunk then
          let inBuffer := inBuffer ++ [audioChunk] in
          drainLoop (S (getBufferSize inBuffer)) config connection inBuffer
        else Some (inBuffer, connection)
      else Some (inBuffer, connection)
  end.

(** [handleMediaEvent]; [None] when the [while] loop does not end. *)
Definition handleMediaEvent (config : TwilioAudioProcessorConfig)
    (data : TwilioData) (connection : WebSocket) (st : State)
  : option (State * WebSocket) :=
  let st := if negb (hasSeenMedia st) then set_hasSeenMedia st true else st in
  if isInbound data && negb (isProcessingAudio st) then
    let st := set_isProcessingAudio st true in
    match media data with
    | Some m =>
        match handleMediaBody config m connection (inBuffer st) with
        | Some (inBuffer', connection') =>
            Some (set_isProcessingAudio (set_inBuffer st inBuffer') false, connection')
        | None => None
        end
    | None => Some (set_isProcessingAudio st false, connection)
    end
  else Some (st, connection).

(** [resetState]. *)
Definition resetState (st : State) : State :=
  {| inBuffer := [];
     hasSeenMedia := false;
     messageCount := 0;
     isProcessingAudio := false;
     streamSid := sid_null |}.

(** [handleTwilioEvent]: the [switch] on [data.event]. *)
Definition handleTwilioEvent (config : TwilioAudioProcessorConfig)
    (data : TwilioData) (connection : WebSocket) (st : State)
  : option (State * WebSocket) :=
  if String.eqb (event data) "connected" then Some (st, connection)
  else if String.eqb (event data) "start" then
    Some (set_streamSid st (start_streamSid data), connection)
  else if String.eqb (event data) "media" then
    handleMediaEvent config data connection st
  else if String.eqb (event data) "stop" then Some (resetState st, connection)
  else Some (st, connection).

(** A message as the server hands it over: [type] is ['utf8'] with the
    outcome of [JSON.parse(utf8Data)] ([None] when parsing throws, or when
    the text parses to [null] and reading [data.event] throws), or
    ['binary']. *)
Inductive Message : Type :=
| utf8 (utf8Data : option TwilioData)
| binary.

(** [processMessage]: the flag tells whether an exception left the method
    (the server's handler catches and logs it); [None] when the media loop
    does not end. *)
Definition processMessage (config : TwilioAudioProcessorConfig)
    (message : Message) (connection : WebSocket) (st : State)
  : option (bool * State * WebSocket) :=
  match message with
  | utf8 (Some data) =>
      match handleTwilioEvent config data connection st with
      | Some (st, connection) =>
          Some (false, set_messageCount st (messageCount st + 1), connection)
      | None => None
      end
  | utf8 None => Some (true, st, connection)
  | binary => Some (false, st, connection)
  end.

(** A session: the messages of one telephony connection in arrival order,
    each with the speech peer's [readyState] when it arrives. *)
Fixpoint runSession (config : TwilioAudioProcessorConfig)
    (messages : list (Message * ReadyState)) (frames : list Bytes) (st : State)
  : option (State * list Bytes) :=
  match messages with
  | [] => Some (st, frames)
  | (message, ready) :: rest =>
      match processMessage config message (mkWebSocket ready frames) st with
      | Some (_, st, connection) => runSession config rest (sent connection) st
      | None => None
      end
  end.

End AudioProcessor.

(** ** JSON text *)

Module Json.

(** A JSON value.  A number keeps the token it was written with: no
    function of this development computes with numbers. *)
#[local] Set Warnings "-register-all".
Inductive value : Type :=
| JNull
| JBool (b : bool)
| JNumber (token : string)
| JString (s : string)
| JArray (items : list value)
| JObject (members : list (string * value)).

Definition dquote : ascii := "034"%char.
Definition backslash : ascii := "092"%char.

Definition chars (s : string) : list ascii := String.list_ascii_of_string s.
Definition text (cs : list ascii) : string := String.string_of_list_ascii cs.

Definition hexDigit (n : nat) : ascii :=
  nth n (chars "0123456789abcdef") "0"%char.

(** [JSON.stringify] of one character inside a string. *)
Definition escapeChar (c : ascii) : list ascii :=
  let n := nat_of_ascii c in
  if n =? 34 then [backslash; dquote]
  else if n =? 92 then [backslash; backslash]
  else if n =? 8 then [backslash; "b"%char]
  else if n =? 12 then [backslash; "f"%char]
  else if n =? 10 then [backslash; "n"%char]
  else if n =? 13 then [backslash; "r"%char]
  else if n =? 9 then [backslash; "t"%char]
  else if n <? 32 then
    [backslash; "u"%char; "0"%char; "0"%char; hexDigit (n / 16); hexDigit (n mod 16)]
  else [c].

Definition quote (cs : list ascii) : list ascii :=
  dquote :: flat_map escapeChar cs ++ [dquote].

Definition joinWith (sep : ascii) (parts : list (list ascii)) : list ascii :=
  match parts with
  | [] => []
  | p :: ps => p ++ flat_map (fun q => sep :: q) ps
  end.

Fixpoint stringifyChars (v : value) : list ascii :=
  match v with
  | JNull => chars "null"
  | JBool true => chars "true"
  | JBool false => chars "false"
  | JNumber token => chars token
  | JString s => quote (chars s)
  | JArray items => "["%char :: joinWith ","%char (map stringifyChars items) ++ ["]"%char]
  | JObject members =>
      "{"%char ::
      joinWith ","%char
        (map (fun member => quote (chars (fst member)) ++ ":"%char :: stringifyChars (snd member))
             members)
      ++ ["}"%char]
  end.

(** [JSON.stringify(v)] for a value with a JSON text. *)
Definition stringify (v : value) : string := text (stringifyChars v).

Definition isWhitespace (c : ascii) : bool :=
  let n := nat_of_ascii c in
  (n =? 32) || (n =? 9) || (n =? 10) || (n =? 13).

Fixpoint skipWhitespace (cs : list ascii) : list ascii :=
  match cs with
  | c :: rest => if isWhitespace c then skipWhitespace rest else cs
  | [] => []
  end.

Definition hexValue (c : ascii) : option nat :=
  let n := nat_of_ascii c in
  if (48 <=? n) && (n <=? 57) then Some (n - 48)
  else if (97 <=? n) && (n <=? 102) then Some (n - 87)
  else if (65 <=? n) && (n <=? 70) then Some (n - 55)
  else None.

(** The code unit of a [\uXXXX] escape, in UTF-8 (a surrogate is encoded on
    its own, not joined with its pair). *)
Definition utf8 (cp : nat) : list ascii :=
  if cp <? 128 then [ascii_of_nat cp]
  else if cp <? 2048 then
    [ascii_of_nat (192 + cp / 64); ascii_of_nat (128 + cp mod 64)]
  else
    [ascii_of_nat (224 + cp / 4096);
     ascii_of_nat (128 + (cp / 64) mod 64);
     ascii_of_nat (128 + cp mod 64)].

Definition simpleEscape (c : ascii) : option ascii :=
  let n := nat_of_ascii c in
  if n =? 34 then Some dquote
  else if n =? 92 then Some backslash
  else if n =? 47 then Some "/"%char
  else if n =? 98 then Some "008"%char
  else if n =? 102 then Some "012"%char
  else if n =? 110 then Some "010"%char
  else if n =? 114 then Some "013"%char
  else if n =? 116 then Some "009"%char
  else None.

Definition prepend (cs : list ascii) (r : option (list ascii * list ascii))
  : option (list ascii * list ascii) :=
  match r with
  | Some (s, rest) => Some (cs ++ s, rest)
  | None => None
  end.

(** The characters of a string after its opening quote, up to the closing
    one, and the text that follows. *)
Fixpoint parseChars (cs : list ascii) : option (list ascii * list ascii) :=
  match cs with
  | [] => None
  | c :: rest =>
      if nat_of_ascii c =? 34 then Some ([], rest)
      else if nat_of_ascii c =? 92 then
        match rest with
        | e :: rest' =>
            match simpleEscape e with
            | Some d => prepend [d] (parseChars rest')
            | None =>
                if nat_of_ascii e =? 117 then
                  match rest' with
                  | h1 :: h2 :: h3 :: h4 :: rest'' =>
                      match hexValue h1, hexValue h2, hexValue h3, hexValue h4 with
                      | Some d1, Some d2, Some d3, Some d4 =>
                          prepend (utf8 (((d1 * 16 + d2) * 16 + d3) * 16 + d4))
                            (parseChars rest'')
                      | _, _, _, _ => None
                      end
                  | _ => None
                  end
                else None
            end
        | [] => None
        end
      else if nat_of_ascii c <? 32 then None
      else prepend [c] (parseChars rest)
  end.

Definition isDigit (c : ascii) : bool :=
  (48 <=? nat_of_ascii c) && (nat_of_ascii c <=? 57).

Fixpoint spanDigits (cs : list ascii) : list ascii * list ascii :=
  match cs with
  | c :: rest =>
      if isDigit c then let '(ds, rest') := spanDigits rest in (c :: ds, rest')
      else ([], cs)
  | [] => ([], [])
  end.

(** A number token: [-]? int frac? exp?. *)
Definition parseNumber (cs : list ascii) : option (list ascii * list ascii) :=
  let '(sign, cs) :=
    match cs with
    | c :: rest => if nat_of_ascii c =? 45 then ([c], rest) else ([], cs)
    | [] => ([], [])
    end in
  match cs with
  | d :: rest =>
      if isDigit d then
        let '(int, rest) :=
          if nat_of_ascii d =? 48 then ([d], rest)
          else let '(ds, rest') := spanDigits rest in (d :: ds, rest') in
        let frac :=
          match rest with
          | p :: rest1 =>
              if nat_of_ascii p =? 46 then
                match spanDigits rest1 with
                | ([], _) => None
                | (ds, rest2) => Some (p :: ds, rest2)
                end
              else Some ([], rest)
          | [] => Some ([], [])
          end in
        match frac with
        | None => None
        | Some (fr, rest) =>
            match rest with
            | e :: rest1 =>
                if (nat_of_ascii e =? 101) || (nat_of_ascii e =? 69) then
                  let '(esign, rest2) :=
                    match rest1 with
                    | s :: rest2 =>
                        if (nat_of_ascii s =? 43) || (nat_of_ascii s =? 45)
                        then ([s], rest2) else ([], rest1)
                    | [] => ([], [])
                    end in
                  match spanDigits rest2 with
                  | ([], _) => None
                  | (ds, rest3) => Some (sign ++ int ++ fr ++ e :: esign ++ ds, rest3)
                  end
                else Some (sign ++ int ++ fr, rest)
            | [] => Some (sign ++ int ++ fr, [])
            end
        end
      else None
  | [] => None
  end.

(** [cs] starts with the characters of [word]: what follows it. *)
Fixpoint afterWord (word cs : list ascii) : option (list ascii) :=
  match word, cs with
  | [], _ => Some cs
  | w :: word', c :: cs' => if Ascii.eqb w c then afterWord word' cs' else None
  | _ :: _, [] => None
  end.

(** The recursive descent; [fuel] bounds the depth of calls, and two units
    per character are always enough. *)
Fixpoint parseValue (fuel : nat) (cs : list ascii) : option (value * list ascii) :=
  match fuel with
  | 0 => None
  | S fuel =>
      match skipWhitespace cs with
      | [] => None
      | c :: rest =>
          let n := nat_of_ascii c in
          if n =? 123 then
            match skipWhitespace rest with
            | c' :: rest' =>
                if nat_of_ascii c' =? 125 then Some (JObject [], rest')
                else
                  match parseMembers fuel rest with
                  | Some (members, rest'') => Some (JObject members, rest'')
                  | None => None
                  end
            | [] => None
            end
          else if n =? 91 then
            match skipWhitespace rest with
            | c' :: rest' =>
                if nat_of_ascii c' =? 93 then Some (JArray [], rest')
                else
                  match parseElements fuel rest with
                  | Some (items, rest'') => Some (JArray items, rest'')
                  | None => None
                  end
            | [] => None
            end
          else if n =? 34 then
            match parseChars rest with
            | Some (s, rest') => Some (JString (text s), rest')
            | None => None
            end
          else if n =? 116 then
            match afterWord (chars "rue") rest with
            | Some rest' => Some (JBool true, rest')
            | None => None
            end
          else if n =? 102 then
            match afterWord (chars "alse") rest with
            | Some rest' => Some (JBool false, rest')
            | None => None
            end
          else if n =? 110 then
            match afterWord (chars "ull") rest with
            | Some rest' => Some (JNull, rest')
            | None => None
            end
          else
            match parseNumber (c :: rest) with
            | Some (token, rest') => Some (JNumber (text token), rest')
            | None => None
            end
      end
  end
with parseElements (fuel : nat) (cs : list ascii) : option (list value * list ascii) :=
  match fuel with
  | 0 => None
  | S fuel =>
      match parseValue fuel cs with
      | Some (v, rest) =>
          match skipWhitespace rest with
          | c :: rest' =>
              if nat_of_ascii c =? 44 then
                match parseElements fuel rest' with
                | Some (items, rest'') => Some (v :: items, rest'')
                | None => None
                end
              else if nat_of_ascii c =? 93 then Some ([v], rest')
              else None
          | [] => None
          end
      | None => None
      end
  end
with parseMembers (fuel : nat) (cs : list ascii)
  : option (list (string * value) * list ascii) :=
  match fuel with
  | 0 => None
  | S fuel =>
      match skipWhitespace cs with
      | q :: rest =>
          if nat_of_ascii q =? 34 then
            match parseChars rest with
            | Some (key, rest1) =>
                match skipWhitespace rest1 with
                | colon :: rest2 =>
                    if nat_of_ascii colon =? 58 then
                      match parseValue fuel rest2 with
                      | Some (v, rest3) =>
                          match skipWhitespace rest3 with
                          | c :: rest4 =>
                              if nat_of_ascii c =? 44 then
                                match parseMembers fuel rest4 with
                                | Some (members, rest5) =>
                                    Some ((text key, v) :: members, rest5)
                                | None => None
                                end
                              else if nat_of_ascii c =? 125 then
                                Some ([(text key, v)], rest4)
                              else None
                          | [] => None
                          end
                      | None => None
                      end
                    else None
                | [] => None
                end
            | None => None
            end
          else None
      | [] => None
      end
  end.

(** [JSON.parse(s)]; [None] when it throws a SyntaxError. *)
Definition parse (s : string) : option value :=
  match parseValue (3 + 2 * List.length (chars s)) (chars s) with
  | Some (v, rest) =>
      match skipWhitespace rest with
      | [] => Some v
      | _ :: _ => None
      end
  | None => None
  end.

End Json.

(** ** The server's handlers ([VoiceAgentExpressServer]) *)

Module Server.

(** The configuration [handleTwilioConnection] builds the audio processor
    with: [bufferSize] alone, the other two members left out. *)
Definition audioProcessorConfig : AudioProcessor.TwilioAudioProcessorConfig :=
  AudioProcessor.mkConfig (20 * 160) Js.undefined Js.undefined.

Module FunctionCall.
Record t : Type := mk {
  name : string;
  id : string;
  arguments : string
}.
End FunctionCall.

Module FunctionCallResponse.
(** [content] is [None] when [JSON.stringify(result)] answers [undefined]:
    the member is then left out of the text sent. *)
Record t : Type := mk {
  type : string;
  id : string;
  name : string;
  content : option string
}.
End FunctionCallResponse.

(** What a function of the table returns, as [JSON.stringify(result)] sees
    it: a value with a JSON text; or [undefined], a function or a symbol,
    for which [JSON.stringify] answers [undefined]; or a value on which it
    throws (a BigInt, a cycle), with [String(error)]. *)
Inductive Returned : Type :=
| with_text (v : Json.value)
| without_text
| not_serialisable (error : string).

(** A function of the dispatch table: called with the decoded arguments, it
    returns or throws [String(error)]. *)
Definition Handler : Type := Json.value -> Js.completion Returned.

(** What the handler takes from the engine that runs the server: the text
    [String(error)] of the SyntaxError that [JSON.parse] throws on a text
    that is not JSON; that of the TypeError that [for...of] throws on a
    value that is not iterable; and, for each member that an object inherits
    from [Object.prototype], what the call [table[name](arguments_)] does on
    a table with the own functions [own]. *)
Record Engine : Type := mkEngine {
  syntaxErrorText : string -> string;
  notIterableText : string;
  inheritedMember : gmap string Handler -> string -> Handler
}.

(** The names every object inherits from [Object.prototype]. *)
Definition objectPrototypeNames : list string :=
  ["constructor"; "__defineGetter__"; "__defineSetter__"; "hasOwnProperty";
   "__lookupGetter__"; "__lookupSetter__"; "isPrototypeOf";
   "propertyIsEnumerable"; "toString"; "valueOf"; "__proto__";
   "toLocaleString"].

(** An object whose prototype is [Object.prototype], as every object
    literal is, with the own functions [own], as the operator [in] and the
    call [table[name](arguments_)] see it: the own functions, and behind
    them the members inherited from [Object.prototype]. *)
Definition objectLiteral (engine : Engine) (own : gmap string Handler)
  : gmap string Handler :=
  own ∪ list_to_map (map (fun name => (name, inheritedMember engine own name))
                         objectPrototypeNames).

(** [message.functions] as the loop meets it: an array, whose entries are
    taken to be of the interface [FunctionCall]; or a string, which
    [for...of] iterates character by character; or a value that it cannot
    iterate (the member is missing, or is [null], a number, a boolean or an
    object). *)
Inductive Functions : Type :=
| entries (functions : list FunctionCall.t)
| characters (text : string)
| not_iterable.

Section Dispatch.

Variable engine : Engine.

(** The table of [../config/function-map], which is not among the
    sources: every name the test [funcName in FUNCTION_MAP] finds, own or
    inherited, with what is stored under it ([objectLiteral] for a table
    written as an object literal). *)
Variable FUNCTION_MAP : gmap string Handler.

(** The body of the [for] loop for one entry: the response handed to
    [send], or the error thrown before that. *)
Definition callFunction (functionCall : FunctionCall.t)
  : Js.completion FunctionCallResponse.t :=
  let funcName := FunctionCall.name functionCall in
  let funcId := FunctionCall.id functionCall in
  match Json.parse (FunctionCall.arguments functionCall) with
  | None => Js.Throw (syntaxErrorText engine (FunctionCall.arguments functionCall))
  | Some arguments_ =>
      let result :=
        match (FUNCTION_MAP !! funcName : option Handler) with
        | Some handler => handler arguments_
        | None =>
            Js.Normal
              (with_text
                 (Json.JObject
                    [("error", Json.JString ("Unknown function: " +:+ funcName))]))
        end in
      match result with
      | Js.Normal (with_text result) =>
          Js.Normal
            (FunctionCallResponse.mk "FunctionCallResponse" funcId funcName
               (Some (Json.stringify result)))
      | Js.Normal without_text =>
          Js.Normal (FunctionCallResponse.mk "FunctionCallResponse" funcId funcName None)
      | Js.Normal (not_serialisable error) => Js.Throw error
      | Js.Throw error => Js.Throw error
      end
  end.

(** The [for] loop over an array: the responses sent, oldest first, and the
    error that ended the loop early, if any. *)
Fixpoint callFunctions (functions : list FunctionCall.t)
  : list FunctionCallResponse.t * option string :=
  match functions with
  | [] => ([], None)
  | functionCall :: rest =>
      match callFunction functionCall with
      | Js.Normal functionResult =>
          let '(sent, error) := callFunctions rest in
          (functionResult :: sent, error)
      | Js.Throw error => ([], Some error)
      end
  end.

(** The response of the [catch] block. *)
Definition errorResult (error : string) : FunctionCallResponse.t :=
  FunctionCallResponse.mk "FunctionCallResponse" "unknown" "unknown"
    (Some
       (Json.stringify
          (Json.JObject
             [("error", Json.JString ("Function call failed with: " +:+ error))]))).

(** [handleFunctionCallRequest]: every response sent to the speech peer,
    oldest first (each goes out as its JSON text).  A character has no
    member [arguments]: the loop over a string throws at once, in
    [JSON.parse(undefined)]. *)
Definition handleFunctionCallRequest (functions : Functions)
  : list FunctionCallResponse.t :=
  match functions with
  | not_iterable => [errorResult (notIterableText engine)]
  | characters text =>
      if String.eqb text "" then []
      else [errorResult (syntaxErrorText engine "undefined")]
  | entries functions =>
      match callFunctions functions with
      | (sent, None) => sent
      | (sent, Some error) => sent ++ [errorResult error]
      end
  end.

End Dispatch.

(** The events of one telephony connection that touch the connection
    timer or end the session. *)
Inductive Event : Type :=
| deepgram_open
| deepgram_close
| deepgram_error
| twilio_close
| twilio_error
| timeout_elapsed.

(** What the timer and the two sockets have seen: whether the timeout is
    still pending, how often [clearTimeout] was called on it, whether the
    telephony socket has closed, and how often [close] was called on each
    socket. *)
Record Session : Type := mkSession {
  timerPending : bool;
  clearTimeoutCalls : nat;
  twilioClosed : bool;
  twilioCloseCalls : nat;
  deepgramCloseCalls : nat;
  configSent : bool
}.

(** [clearTimeout(connectionTimeout)]: the timer is not pending afterwards,
    whether it was before or not. *)
Definition clearTimeout (s : Session) : Session :=
  {| timerPending := false;
     clearTimeoutCalls := S (clearTimeoutCalls s);
     twilioClosed := twilioClosed s;
     twilioCloseCalls := twilioCloseCalls s;
     deepgramCloseCalls := deepgramCloseCalls s;
     configSent := configSent s |}.

(** The [connection] callback: [setTimeout], then
    [handleTwilioConnection], whose [catch] clears the timer when setting
    up the sockets throws. *)
Definition connect (setupThrows : bool) : Session :=
  let s := mkSession true 0 false 0 0 false in
  if setupThrows then clearTimeout s else s.

(** The handler registered for each event. *)
Definition handle (s : Session) (e : Event) : Session :=
  match e with
  | deepgram_open =>
      let s := clearTimeout s in
      {| timerPending := timerPending s;
         clearTimeoutCalls := clearTimeoutCalls s;
         twilioClosed := twilioClosed s;
         twilioCloseCalls := twilioCloseCalls s;
         deepgramCloseCalls := deepgramCloseCalls s;
         configSent := true |}
  | deepgram_close => s
  | deepgram_error => s
  | twilio_close =>
      {| timerPending := timerPending s;
         clearTimeoutCalls := clearTimeoutCalls s;
         twilioClosed := true;
         twilioCloseCalls := twilioCloseCalls s;
         deepgramCloseCalls := S (deepgramCloseCalls s);
         configSent := configSent s |}
  | twilio_error => clearTimeout s
  | timeout_elapsed =>
      (* the callback runs only while the timeout is pending *)
      if timerPending s then
        {| timerPending := false;
           clearTimeoutCalls := clearTimeoutCalls s;
           twilioClosed := twilioClosed s;
           twilioCloseCalls := S (twilioCloseCalls s);
           deepgramCloseCalls := deepgramCloseCalls s;
           configSent := configSent s |}
      else s
  end.

Definition run (events : list Event) (s : Session) : Session :=
  fold_left handle events s.

End Server.

(** ** The speech peer's messages ([deepgramConnection.on('message')]) *)

Module Relay.

(** [if (streamSid)]: the identifier when it is a string that is not empty;
    [null], [undefined] and the empty string are falsy. *)
Definition truthy (streamSid : AudioProcessor.StreamSid) : option string :=
  match streamSid with
  | AudioProcessor.sid_string s => if String.eqb s "" then None else Some s
  | AudioProcessor.sid_null => None
  | AudioProcessor.sid_undefined => None
  end.

Definition base64Alphabet : list ascii :=
  Json.chars "ABCDEFGHIJKLMNOPQRSTUVWXYZabcdefghijklmnopqrstuvwxyz0123456789+/".

Definition base64Char (n : nat) : ascii := nth n base64Alphabet "A"%char.

(** [data.toString('base64')]: three bytes to four characters, the last
    group padded with [=]. *)
Fixpoint base64Chars (data : Bytes) : list ascii :=
  match data with
  | [] => []
  | [a] =>
      let x := Byte.to_nat a in
      [base64Char (x / 4); base64Char (x mod 4 * 16); "="%char; "="%char]
  | [a; b] =>
      let x := Byte.to_nat a in
      let y := Byte.to_nat b in
      [base64Char (x / 4); base64Char (x mod 4 * 16 + y / 16);
       base64Char (y mod 16 * 4); "="%char]
  | a :: b :: c :: rest =>
      let x := Byte.to_nat a in
      let y := Byte.to_nat b in
      let z := Byte.to_nat c in
      base64Char (x / 4) :: base64Char (x mod 4 * 16 + y / 16)
      :: base64Char (y mod 16 * 4 + z / 64) :: base64Char (z mod 64)
      :: base64Chars rest
  end.

Definition base64 (data : Bytes) : string := Json.text (base64Chars data).

(** The two objects the server sends to the telephony peer, each as its
    JSON text: [{event: 'media', streamSid, media: {payload}}] and
    [{event: 'clear', streamSid}]. *)
Inductive TwilioOut : Type :=
| MediaMessage (streamSid : string) (payload : string)
| ClearMessage (streamSid : string).

Definition streamSidOf (m : TwilioOut) : string :=
  match m with
  | MediaMessage streamSid _ => streamSid
  | ClearMessage streamSid => streamSid
  end.

(** A message of the speech peer, by what the handler does with it: the
    bytes received, and the outcome of [JSON.parse(data.toString())], which
    throws, or yields [null] (of type ['object'], but reading its [type]
    throws), or an object or array with the members [type] (when a string)
    and [functions], or a number, string or boolean. *)
Inductive Parsed : Type :=
| not_json
| json_null
| json_object (type : option string) (functions : Server.Functions)
| json_scalar.

Section Handlers.

Variable engine : Server.Engine.
Variable FUNCTION_MAP : gmap string Server.Handler.

(** [handleTextMessage]: the messages for the telephony peer and the
    responses for the speech peer. *)
Definition handleTextMessage (type : option string)
    (functions : Server.Functions) (streamSid : AudioProcessor.StreamSid)
  : list TwilioOut * list Server.FunctionCallResponse.t :=
  let cleared :=
    match type with
    | Some t =>
        if String.eqb t "UserStartedSpeaking" then
          match truthy streamSid with
          | Some sid => [ClearMessage sid]
          | None => []
          end
        else []
    | None => []
    end in
  let responses :=
    match type with
    | Some t =>
        if String.eqb t "FunctionCallRequest" then
          Server.handleFunctionCallRequest engine FUNCTION_MAP functions
        else []
    | None => []
    end in
  (cleared, responses).

(** The [catch] block: the bytes go to the telephony peer as a [media]
    message when a stream identifier is stored. *)
Definition relayAudio (data : Bytes) (streamSid : AudioProcessor.StreamSid)
  : list TwilioOut :=
  match truthy streamSid with
  | Some currentStreamSid => [MediaMessage currentStreamSid (base64 data)]
  | None => []
  end.

(** The [message] handler of the speech peer's socket, with the processor's
    state at that moment ([audioProcessor.getStreamSid()]). *)
Definition onDeepgramMessage (data : Bytes) (parsed : Parsed)
    (st : AudioProcessor.State)
  : list TwilioOut * list Server.FunctionCallResponse.t :=
  match parsed with
  | json_object type functions =>
      handleTextMessage type functions (AudioProcessor.streamSid st)
  | json_scalar => ([], [])
  | json_null => (relayAudio data (AudioProcessor.streamSid st), [])
  | not_json => (relayAudio data (AudioProcessor.streamSid st), [])
  end.

End Handlers.

End Relay.

(** ** The call endpoint ([handleIniciarLlamada]) *)

Module Http.

Record Response : Type := mkResponse {
  status : nat;
  body : string
}.

(** The members of [req.body] the handler reads, each a string or absent. *)
Record CallBody : Type := mkCallBody {
  websocketUrl : option string;
  fromNumber : option string;
  toNumber : option string
}.

Record Env : Type := mkEnv {
  CUSTOMER_PHONE_NUMBER : option string;
  TWILIO_PHONE_NUMBER : option string
}.

(** The argument of [twilioClient.calls.create]. *)
Record CallParams : Type := mkCallParams {
  url : string;
  to : string;
  from : string
}.

(** A string that is present and not empty. *)
Definition truthy (v : option string) : option string :=
  match v with
  | Some s => if String.eqb s "" then None else Some s
  | None => None
  end.

(** [a || b]. *)
Definition orElse (a b : option string) : option string :=
  match truthy a with
  | Some _ => a
  | None => b
  end.

Definition phoneNumbersRequired : string :=
  "Error: Phone numbers are required. Either provide fromNumber and toNumber in request body or set CUSTOMER_PHONE_NUMBER and TWILIO_PHONE_NUMBER environment variables".

(** [handleIniciarLlamada]: the response, and the calls asked of Twilio;
    [create] tells whether [calls.create] resolves for given parameters. *)
Definition handleIniciarLlamada (env : Env) (create : CallParams -> bool)
    (req : CallBody) : Response * list CallParams :=
  let customerPhoneNumber := orElse (toNumber req) (CUSTOMER_PHONE_NUMBER env) in
  let twilioPhoneNumber := orElse (fromNumber req) (TWILIO_PHONE_NUMBER env) in
  match truthy customerPhoneNumber, truthy twilioPhoneNumber with
  | Some customer, Some twilio =>
      match truthy (websocketUrl req) with
      | None => (mkResponse 400 "Error: websocketUrl parameter is required", [])
      | Some websocketUrl =>
          let params := mkCallParams websocketUrl customer twilio in
          if create params then
            (mkResponse 200 "Llamada iniciada. Revisa tu teléfono.", [params])
          else (mkResponse 500 "Error al iniciar la llamada.", [params])
      end
  | _, _ => (mkResponse 500 phoneNumbersRequired, [])
  end.

End Http.

(** ** Notions and sample data of the statements *)

(** The largest absolute sample value of a frame (0 for no samples). *)
Definition maxAbs (samples : list Z) : Z :=
  fold_right (fun sample m => Z.max (Z.abs sample) m) 0%Z samples.

(** A frame with every sample at or below the gate zeroed. *)
Definition gated (gateThreshold : float) (samples : list Z) : list Z :=
  map (fun sample =>
         if AudioProcessor.aboveGate gateThreshold sample then sample else 0%Z)
      samples.

(** The configuration with the reference values: frames of 3200 bytes,
    fragments above 20 bytes, a threshold ratio of 0.005. *)
Definition referenceConfig : AudioProcessor.TwilioAudioProcessorConfig :=
  AudioProcessor.mkConfig 3200 (Js.number 20%float) (Js.number 0x1.47ae147ae147bp-8%float).

(** Two samples, 4096 and 5, at an aligned offset. *)
Definition loudQuietFrame : NodeBuffer :=
  mkNodeBuffer 0 [Byte.x00; Byte.x10; Byte.x05; Byte.x00].

(** One sample, 4096, and a trailing byte, at an aligned offset. *)
Definition oddFrame : NodeBuffer :=
  mkNodeBuffer 0 [Byte.x00; Byte.x10; Byte.x05].


(** A session in the middle of a stream: one fragment buffered, seven
    messages counted, a stream identifier stored. *)
Definition streamingState : AudioProcessor.State :=
  AudioProcessor.mkState [[Byte.x01; Byte.x02]] true 7 false
    (AudioProcessor.sid_string "MZ0001").


(** [ToPropertyKey] of a decoded argument: the text itself for a string, the
    elements joined by commas for an array ([null] giving no character).  A
    number is taken as it is written. *)
Fixpoint propertyKey (v : Json.value) : string :=
  match v with
  | Json.JNull => "null"
  | Json.JBool true => "true"
  | Json.JBool false => "false"
  | Json.JNumber token => token
  | Json.JString s => s
  | Json.JArray items =>
      String.concat ","
        (map (fun item => match item with
                          | Json.JNull => ""
                          | _ => propertyKey item
                          end) items)
  | Json.JObject _ => "[object Object]"
  end.

(** The members of [Object.prototype] called on a table, for an object
    literal that holds no function named [toString] or [toJSON]:
    [constructor] is [Object], which hands back its argument (a new empty
    object for [null]); [toString] and [toLocaleString] answer the tag of a
    plain object; [valueOf] answers the table, whose functions
    [JSON.stringify] leaves out; [hasOwnProperty] and [propertyIsEnumerable]
    say whether the table has the argument as a key; [isPrototypeOf] is
    false of decoded arguments; [__lookupGetter__] and [__lookupSetter__]
    answer [undefined] or a function; [__defineGetter__] and
    [__defineSetter__] throw, no function being passed; and [__proto__] is
    not a function, so that the call throws. *)
Definition exampleInherited (own : gmap string Server.Handler) (name : string)
  : Server.Handler :=
  fun arguments_ =>
    if String.eqb name "constructor" then
      Js.Normal (Server.with_text
                   (match arguments_ with
                    | Json.JNull => Json.JObject []
                    | _ => arguments_
                    end))
    else if String.eqb name "toString" || String.eqb name "toLocaleString" then
      Js.Normal (Server.with_text (Json.JString "[object Object]"))
    else if String.eqb name "valueOf" then
      Js.Normal (Server.with_text (Json.JObject []))
    else if String.eqb name "hasOwnProperty" || String.eqb name "propertyIsEnumerable" then
      Js.Normal (Server.with_text
                   (Json.JBool (bool_decide (is_Some (own !! propertyKey arguments_)))))
    else if String.eqb name "isPrototypeOf" then
      Js.Normal (Server.with_text (Json.JBool false))
    else if String.eqb name "__lookupGetter__" || String.eqb name "__lookupSetter__" then
      Js.Normal Server.without_text
    else if String.eqb name "__defineGetter__" then
      Js.Throw "TypeError: Object.prototype.__defineGetter__: Expecting function"
    else if String.eqb name "__defineSetter__" then
      Js.Throw "TypeError: Object.prototype.__defineSetter__: Expecting function"
    else
      Js.Throw "TypeError: FUNCTION_MAP[funcName] is not a function".

(** An engine for the examples.  The two error texts stand for the
    engine's own wording. *)
Definition exampleEngine : Server.Engine :=
  Server.mkEngine
    (fun text => "SyntaxError: " +:+ text +:+ " is not valid JSON")
    "TypeError: message.functions is not iterable"
    exampleInherited.

(** The table written [{}]. *)
Definition emptyMap : gmap string Server.Handler :=
  Server.objectLiteral exampleEngine ∅.

(** A call of a function that no table of the examples holds, with an empty
    argument object, and the same call with arguments cut short. *)
Definition unknownCall : Server.FunctionCall.t :=
  Server.FunctionCall.mk "lookupOrder" "call_7" "{}".



(** A table whose one function throws, and a call of it. *)
Definition throwingFunctions : gmap string Server.Handler :=
  {[ "explode" := (fun _ : Json.value => @Js.Throw Server.Returned "Error: boom") ]}.

Definition throwingMap : gmap string Server.Handler :=
  Server.objectLiteral exampleEngine throwingFunctions.

Definition explodeCall : Server.FunctionCall.t :=
  Server.FunctionCall.mk "explode" "call_1" "{}".

(** The response of the [catch] block written out: the identifiers
    [unknown], and as content the JSON text of an object with the one member
    [error]. *)
Definition placeholder (error : string) : Server.FunctionCallResponse.t :=
  Server.FunctionCallResponse.mk "FunctionCallResponse" "unknown" "unknown"
    (Some (Json.stringify
             (Json.JObject
                [("error", Json.JString ("Function call failed with: " +:+ error))]))).

(** An entry is answered with [response]: its arguments are JSON, and
    either the table holds its name and the function called returns, the
    response then echoing the entry with the JSON text of the result (no
    content when the result has no text); or the table does not hold its
    name, the response then echoing the entry with the unknown-function
    error. *)
Inductive answers (FUNCTION_MAP : gmap string Server.Handler)
  : Server.FunctionCall.t -> Server.FunctionCallResponse.t -> Prop :=
| answers_result functionCall arguments_ handler result :
    Json.parse (Server.FunctionCall.arguments functionCall) = Some arguments_ ->
    (FUNCTION_MAP !! Server.FunctionCall.name functionCall : option Server.Handler)
    = Some handler ->
    handler arguments_ = Js.Normal (Server.with_text result) ->
    answers FUNCTION_MAP functionCall
      (Server.FunctionCallResponse.mk "FunctionCallResponse"
         (Server.FunctionCall.id functionCall) (Server.FunctionCall.name functionCall)
         (Some (Json.stringify result)))
| answers_without_text functionCall arguments_ handler :
    Json.parse (Server.FunctionCall.arguments functionCall) = Some arguments_ ->
    (FUNCTION_MAP !! Server.FunctionCall.name functionCall : option Server.Handler)
    = Some handler ->
    handler arguments_ = Js.Normal Server.without_text ->
    answers FUNCTION_MAP functionCall
      (Server.FunctionCallResponse.mk "FunctionCallResponse"
         (Server.FunctionCall.id functionCall) (Server.FunctionCall.name functionCall)
         None)
| answers_unknown functionCall arguments_ :
    Json.parse (Server.FunctionCall.arguments functionCall) = Some arguments_ ->
    (FUNCTION_MAP !! Server.FunctionCall.name functionCall : option Server.Handler)
    = None ->
    answers FUNCTION_MAP functionCall
      (Server.FunctionCallResponse.mk "FunctionCallResponse"
         (Server.FunctionCall.id functionCall) (Server.FunctionCall.name functionCall)
         (Some (Json.stringify
                  (Json.JObject
                     [("error",
                       Json.JString
                         ("Unknown function: "
                          +:+ Server.FunctionCall.name functionCall))])))).

(** What closes the responses of a request, given the entries not
    answered: nothing when none is left; otherwise the one placeholder
    response, with the error of the first entry left, whose arguments are
    not JSON, or whose function throws, or returns a value that
    [JSON.stringify] throws on. *)
Inductive stopsAt (engine : Server.Engine) (FUNCTION_MAP : gmap string Server.Handler)
  : list Server.FunctionCall.t -> list Server.FunctionCallResponse.t -> Prop :=
| stops_at_end : stopsAt engine FUNCTION_MAP [] []
| stops_at_arguments functionCall rest :
    Json.parse (Server.FunctionCall.arguments functionCall) = None ->
    stopsAt engine FUNCTION_MAP (functionCall :: rest)
      [placeholder
         (Server.syntaxErrorText engine (Server.FunctionCall.arguments functionCall))]
| stops_at_throw functionCall rest arguments_ handler error :
    Json.parse (Server.FunctionCall.arguments functionCall) = Some arguments_ ->
    (FUNCTION_MAP !! Server.FunctionCall.name functionCall : option Server.Handler)
    = Some handler ->
    handler arguments_ = Js.Throw error ->
    stopsAt engine FUNCTION_MAP (functionCall :: rest) [placeholder error]
| stops_at_result functionCall rest arguments_ handler error :
    Json.parse (Server.FunctionCall.arguments functionCall) = Some arguments_ ->
    (FUNCTION_MAP !! Server.FunctionCall.name functionCall : option Server.Handler)
    = Some handler ->
    handler arguments_ = Js.Normal (Server.not_serialisable error) ->
    stopsAt engine FUNCTION_MAP (functionCall :: rest) [placeholder error].

(** The speech peer's socket after [frames] were handed to the inbound
    path: they are sent when the socket is open, dropped otherwise. *)
Definition delivered (connection : AudioProcessor.WebSocket) (frames : list Bytes)
  : AudioProcessor.WebSocket :=
  AudioProcessor.mkWebSocket (AudioProcessor.readyState connection)
    (AudioProcessor.sent connection
     ++ if AudioProcessor.isDeepgramReady connection then frames else []).

(** Between two messages the processor is idle and holds less than one
    frame. *)
Definition idle (config : AudioProcessor.TwilioAudioProcessorConfig)
    (st : AudioProcessor.State) : Prop :=
  AudioProcessor.getBufferSize (AudioProcessor.inBuffer st)
  < AudioProcessor.bufferSize config /\
  AudioProcessor.isProcessingAudio st = false.

(** A frame as the inbound path sends it: not empty, and [bufferSize] bytes
    rounded down to whole samples. *)
Definition wholeFrame (config : AudioProcessor.TwilioAudioProcessorConfig)
    (frame : Bytes) : Prop :=
  0 < length frame /\ length frame = 2 * (AudioProcessor.bufferSize config / 2).

(** A small configuration for examples: frames of four bytes. *)
Definition smallConfig : AudioProcessor.TwilioAudioProcessorConfig :=
  AudioProcessor.mkConfig 4 (Js.number 20%float) (Js.number 0x1.47ae147ae147bp-8%float).

(** An inbound [media] event carrying 22 bytes, the first two a loud
    sample. *)
Definition loudMediaEvent : AudioProcessor.TwilioData :=
  AudioProcessor.mkData "media" AudioProcessor.sid_undefined
    (Some (AudioProcessor.mkMedia (Some "inbound")
             (Some (Byte.x00 :: Byte.x10 :: repeat Byte.x00 20)))).

(** A table with one function that echoes its arguments, and two calls of
    it. *)
Definition echoFunctions : gmap string Server.Handler :=
  {[ "echo" := (fun arguments_ : Json.value => Js.Normal (Server.with_text arguments_)) ]}.

Definition echoMap : gmap string Server.Handler :=
  Server.objectLiteral exampleEngine echoFunctions.

Definition echoCalls : list Server.FunctionCall.t :=
  [Server.FunctionCall.mk "echo" "call_a" "[1]";
   Server.FunctionCall.mk "echo" "call_b" "[2]"].

(** The table with both functions, the echoing one and the throwing one. *)
Definition echoThrowingMap : gmap string Server.Handler :=
  Server.objectLiteral exampleEngine (echoFunctions ∪ throwingFunctions).

(** * Properties *)

Import AudioProcessor.

(** ** Frame buffer *)

Section FrameBuffer.

Implicit Types (inBuffer frames : list Bytes) (size : nat).

Lemma getBufferSize_from (inBuffer : list Bytes) (n : nat) :
  fold_left (fun total chunk => total + length chunk) inBuffer n
  = n + length (concat inBuffer).
Proof.
  revert n. induction inBuffer as [|c r IH]; intros n; simpl.
  - lia.
  - rewrite IH, length_app. lia.
Qed.

Lemma getBufferSize_concat inBuffer :
  getBufferSize inBuffer = length (concat inBuffer).
Proof. unfold getBufferSize. now rewrite getBufferSize_from. Qed.

(** The counting loop gives up only below [size]. *)
Lemma countChunks_short size inBuffer : forall totalSize i,
  totalSize + length (concat inBuffer) < size ->
  countChunks size totalSize i inBuffer = 0.
Proof.
  induction inBuffer as [|c r IH]; intros t i H; simpl in *; [reflexivity|].
  rewrite length_app in H.
  destruct (Nat.leb_spec size (t + length c)); [lia|].
  apply IH. lia.
Qed.

(** When it breaks, the chunks counted reach [size]. *)
Lemma countChunks_reached size inBuffer : forall totalSize i,
  countChunks size totalSize i inBuffer <> 0 ->
  i < countChunks size totalSize i inBuffer /\
  size <= totalSize
          + length (concat (firstn (countChunks size totalSize i inBuffer - i) inBuffer)).
Proof.
  induction inBuffer as [|c r IH]; intros t i H; simpl in *; [congruence|].
  destruct (Nat.leb_spec size (t + length c)) as [Hle|Hlt].
  - split; [lia|].
    replace (i + 1 - i) with 1 by lia. simpl. rewrite length_app. simpl. lia.
  - destruct (IH _ _ H) as [Hi Hsz]. split; [lia|].
    set (n := countChunks size (t + length c) (i + 1) r) in *.
    replace (n - i) with (S (n - (i + 1))) by lia.
    simpl. rewrite length_app. lia.
Qed.

(** With a positive [size] it breaks as soon as enough is buffered. *)
Lemma countChunks_enough size inBuffer : forall totalSize i,
  totalSize < size ->
  size <= totalSize + length (concat inBuffer) ->
  countChunks size totalSize i inBuffer <> 0.
Proof.
  induction inBuffer as [|c r IH]; intros t i Ht H; simpl in *; [lia|].
  rewrite length_app in H.
  destruct (Nat.leb_spec size (t + length c)); [lia|].
  apply IH; lia.
Qed.

Lemma extractChunk_none size inBuffer :
  getBufferSize inBuffer < size ->
  extractChunk size inBuffer = (None, inBuffer).
Proof.
  rewrite getBufferSize_concat. intros H. unfold extractChunk.
  rewrite countChunks_short by (simpl; lia). reflexivity.
Qed.

Lemma extractChunk_some size inBuffer :
  0 < size -> size <= getBufferSize inBuffer ->
  exists frame rest,
    extractChunk size inBuffer = (Some frame, rest) /\
    length frame = size /\
    frame ++ concat rest = concat inBuffer.
Proof.
  rewrite getBufferSize_concat. intros Hpos Hsz. unfold extractChunk.
  pose proof (countChunks_enough size inBuffer 0 0 Hpos Hsz) as Hne.
  destruct (countChunks_reached size inBuffer 0 0 Hne) as [_ Hreach].
  set (n := countChunks size 0 0 inBuffer) in *.
  rewrite Nat.sub_0_r in Hreach. simpl in Hreach.
  destruct (Nat.eqb_spec n 0) as [|_]; [congruence|].
  assert (Hcat : concat (firstn n inBuffer) ++ concat (skipn n inBuffer)
                 = concat inBuffer)
    by now rewrite <- concat_app, firstn_skipn.
  destruct (Nat.ltb_spec size (length (concat (firstn n inBuffer)))) as [Hlt|Hge].
  - eexists _, _. split; [reflexivity|]. split.
    + rewrite length_take. lia.
    + simpl. rewrite app_assoc, firstn_skipn. exact Hcat.
  - eexists _, _. split; [reflexivity|]. split; [lia | exact Hcat].
Qed.

Lemma fold_push inBuffer (fragments : list Bytes) :
  fold_left push fragments inBuffer = inBuffer ++ fragments.
Proof.
  revert inBuffer. induction fragments as [|f r IH]; intros b; simpl.
  - now rewrite app_nil_r.
  - rewrite IH. unfold push. now rewrite <- app_assoc.
Qed.

(** Extraction until [null] ends within [getBufferSize + 1] calls and cuts
    the buffered bytes into frames, in order. *)
Lemma extractAll_frames size (Hpos : 0 < size) : forall fuel inBuffer,
  getBufferSize inBuffer < fuel ->
  exists frames rest,
    extractAll fuel size inBuffer = Some (frames, rest) /\
    Forall (fun frame => length frame = size) frames /\
    concat frames ++ concat rest = concat inBuffer /\
    getBufferSize rest < size /\
    (size <= getBufferSize inBuffer -> frames <> []).
Proof.
  induction fuel as [|fuel IH]; intros b Hfuel; [lia|].
  simpl. destruct (Nat.lt_ge_cases (getBufferSize b) size) as [Hlt|Hge].
  - rewrite extractChunk_none by exact Hlt.
    exists [], b. repeat split; auto. lia.
  - destruct (extractChunk_some size b Hpos Hge) as (frame & rest & -> & Hlen & Hcat).
    assert (Hrest : getBufferSize rest < fuel).
    { rewrite !getBufferSize_concat in *.
      apply (f_equal (@length _)) in Hcat. rewrite length_app in Hcat. lia. }
    destruct (IH rest Hrest) as (frames & rest' & -> & Hall & Hcat' & Hshort & _).
    exists (frame :: frames), rest'.
    split; [reflexivity|]. split; [now constructor|].
    split; [|split; [exact Hshort | discriminate]].
    simpl. rewrite <- Hcat, <- Hcat'. now rewrite app_assoc.
Qed.

(** With [size = 0] a buffer that holds a byte at its head is handed back
    as it was, with an empty frame: extraction never answers [null]. *)
Lemma extractChunk_zero_size_stalls (b : byte) (chunk : Bytes) inBuffer :
  extractChunk 0 ((b :: chunk) :: inBuffer) = (Some [], (b :: chunk) :: inBuffer).
Proof.
  unfold extractChunk. simpl. rewrite app_nil_r. reflexivity.
Qed.

End FrameBuffer.

(** C1.  For a positive frame size: after any sequence of [push] calls whose
    bytes add up to at least [size], calling [extractChunk size] until it
    answers [null] ends (any fuel above the buffered length suffices) and
    yields at least one frame, every frame has exactly [size] bytes, the
    frames in order followed by what stays buffered are the pushed bytes in
    order, and what stays buffered is shorter than [size]; and whenever fewer
    than [size] bytes are buffered, [extractChunk] answers [null] and leaves
    the buffer as it is. *)
Theorem extractChunk_frames_reassemble (size : nat) :
  0 < size ->
  (forall (fragments : list Bytes) (fuel : nat),
      size <= length (concat fragments) ->
      length (concat fragments) < fuel ->
      exists frames rest,
        extractAll fuel size (fold_left push fragments []) = Some (frames, rest) /\
        frames <> [] /\
        Forall (fun frame => length frame = size) frames /\
        concat frames ++ concat rest = concat fragments /\
        length (concat rest) < size /\
        extractChunk size rest = (None, rest)) /\
  (forall inBuffer : list Bytes,
      getBufferSize inBuffer < size ->
      extractChunk size inBuffer = (None, inBuffer)).
Proof.
  intros Hpos. split.
  - intros fragments fuel Hsz Hfuel.
    rewrite fold_push. simpl.
    destruct (extractAll_frames size Hpos fuel fragments) as
      (frames & rest & Hrun & Hall & Hcat & Hshort & Hne).
    { now rewrite getBufferSize_concat. }
    exists frames, rest. repeat split; auto.
    + apply Hne. now rewrite getBufferSize_concat.
    + now rewrite <- getBufferSize_concat.
    + now apply extractChunk_none.
  - intros inBuffer. apply extractChunk_none.
Qed.

(** The scenario of three fragments cut at a frame size of three bytes. *)
Lemma extractChunk_frames_reassemble_witness :
  exists frames rest,
    extractAll 8 3
      (fold_left push
         [[Byte.x01; Byte.x02]; [Byte.x03; Byte.x04]; [Byte.x05; Byte.x06; Byte.x07]] [])
    = Some (frames, rest) /\
    frames <> [] /\
    Forall (fun frame => length frame = 3) frames /\
    concat frames ++ concat rest
    = concat [[Byte.x01; Byte.x02]; [Byte.x03; Byte.x04]; [Byte.x05; Byte.x06; Byte.x07]] /\
    length (concat rest) < 3 /\
    extractChunk 3 rest = (None, rest).
Proof.
  apply (proj1 (extractChunk_frames_reassemble 3 ltac:(lia))); simpl; lia.
Defined.

(** The three fragments cut into two frames, one byte left buffered. *)
Example extractAll_three_fragments :
  extractAll 8 3
    (fold_left push
       [[Byte.x01; Byte.x02]; [Byte.x03; Byte.x04]; [Byte.x05; Byte.x06; Byte.x07]] [])
  = Some ([[Byte.x01; Byte.x02; Byte.x03]; [Byte.x04; Byte.x05; Byte.x06]],
          [[Byte.x07]]).
Proof. reflexivity. Qed.

(** Fragments of 500, 500 and 2200 bytes at a frame size of 3200: exactly one
    frame, of 3200 bytes, and nothing left. *)
Example extractAll_one_full_frame :
  extractAll 3201 3200
    (fold_left push
       [repeat Byte.x01 500; repeat Byte.x02 500; repeat Byte.x03 2200] [])
  = Some ([repeat Byte.x01 500 ++ repeat Byte.x02 500 ++ repeat Byte.x03 2200], []).
Proof. vm_compute. reflexivity. Qed.

(** ** Bytes and 16-bit samples *)

Section Samples.

Lemma byte_to_Z_range (b : byte) : (0 <= byte_to_Z b < 256)%Z.
Proof.
  unfold byte_to_Z. pose proof (Byte.to_N_bounded b). lia.
Qed.

Lemma byte_of_to_Z (b : byte) : byte_of_Z (byte_to_Z b) = b.
Proof.
  unfold byte_of_Z. pose proof (byte_to_Z_range b) as Hr.
  rewrite Z.mod_small by exact Hr.
  unfold byte_to_Z. rewrite N2Z.id, Byte.of_to_N. reflexivity.
Qed.

Lemma byte_to_of_Z (z : Z) : byte_to_Z (byte_of_Z z) = (z mod 256)%Z.
Proof.
  unfold byte_of_Z, byte_to_Z.
  assert (Hr : (0 <= z mod 256 < 256)%Z) by (apply Z.mod_pos_bound; lia).
  destruct (Byte.of_N (Z.to_N (z mod 256))) as [b|] eqn:E.
  - apply Byte.to_of_N in E. rewrite E. lia.
  - apply Byte.of_N_None_iff in E. lia.
Qed.

Lemma int16_of_bytes_range (lo hi : byte) :
  (-32768 <= int16_of_bytes lo hi < 32768)%Z.
Proof.
  unfold int16_of_bytes.
  pose proof (byte_to_Z_range lo). pose proof (byte_to_Z_range hi).
  destruct (Z.ltb_spec (byte_to_Z lo + 256 * byte_to_Z hi) 32768); lia.
Qed.

Lemma int16_bytes_of_bytes (lo hi : byte) :
  byte_of_Z (int16_of_bytes lo hi mod 65536) = lo /\
  byte_of_Z ((int16_of_bytes lo hi mod 65536) / 256) = hi.
Proof.
  pose proof (byte_to_Z_range lo) as Hl. pose proof (byte_to_Z_range hi) as Hh.
  assert (Hu : (int16_of_bytes lo hi mod 65536
                = byte_to_Z lo + 256 * byte_to_Z hi)%Z).
  { unfold int16_of_bytes.
    destruct (Z.ltb_spec (byte_to_Z lo + 256 * byte_to_Z hi) 32768);
      Z.div_mod_to_equations; lia. }
  rewrite Hu. split.
  - rewrite <- (byte_of_to_Z lo) at 2. unfold byte_of_Z at 1 2.
    replace ((byte_to_Z lo + 256 * byte_to_Z hi) mod 256)%Z
      with (byte_to_Z lo mod 256)%Z; [reflexivity|].
    Z.div_mod_to_equations; lia.
  - rewrite <- (byte_of_to_Z hi) at 2. f_equal.
    Z.div_mod_to_equations; lia.
Qed.

Lemma int16_of_bytes_of_int16 (s : Z) :
  (-32768 <= s < 32768)%Z ->
  int16_of_bytes (byte_of_Z (s mod 65536)) (byte_of_Z ((s mod 65536) / 256)) = s.
Proof.
  intros Hs. unfold int16_of_bytes. rewrite !byte_to_of_Z.
  destruct (Z.ltb_spec ((s mod 65536) mod 256
                        + 256 * (((s mod 65536) / 256) mod 256)) 32768);
    Z.div_mod_to_equations; lia.
Qed.

Lemma length_encodeInt16 (samples : list Z) :
  length (encodeInt16 samples) = 2 * length samples.
Proof. induction samples as [|s r IH]; simpl; [reflexivity | lia]. Qed.

(** Induction over byte sequences two bytes at a time. *)
Lemma bytes_pair_ind (P : Bytes -> Prop) :
  P [] -> (forall b, P [b]) ->
  (forall lo hi rest, P rest -> P (lo :: hi :: rest)) ->
  forall bs, P bs.
Proof.
  intros H0 H1 H2.
  assert (H : forall bs, P bs /\ forall b, P (b :: bs)).
  { induction bs as [|b r [IHa IHb]]; split; auto. }
  intros bs. apply H.
Qed.

Lemma div2_SS (n : nat) : S (S n) / 2 = S (n / 2).
Proof.
  replace (S (S n)) with (n + 1 * 2) by lia.
  rewrite Nat.div_add by lia. lia.
Qed.

Lemma length_decodeInt16 (bs : Bytes) :
  length (decodeInt16 bs) = length bs / 2.
Proof.
  induction bs as [| b | lo hi rest IH] using bytes_pair_ind; try reflexivity.
  cbn [decodeInt16 length]. rewrite IH, div2_SS. reflexivity.
Qed.

Lemma decodeInt16_range (bs : Bytes) :
  Forall (fun s => (-32768 <= s < 32768)%Z) (decodeInt16 bs).
Proof.
  induction bs as [| b | lo hi rest IH] using bytes_pair_ind;
    simpl; constructor; auto using int16_of_bytes_range.
Qed.

(** The samples of a view written back are the viewed bytes. *)
Lemma encode_decodeInt16 (bs : Bytes) :
  encodeInt16 (decodeInt16 bs) = firstn (2 * (length bs / 2)) bs.
Proof.
  induction bs as [| b | lo hi rest IH] using bytes_pair_ind; try reflexivity.
  cbn [decodeInt16 encodeInt16 length].
  destruct (int16_bytes_of_bytes lo hi) as [-> ->]. rewrite IH, div2_SS.
  replace (2 * S (length rest / 2)) with (S (S (2 * (length rest / 2)))) by lia.
  reflexivity.
Qed.

Lemma decode_encodeInt16 (samples : list Z) :
  Forall (fun s => (-32768 <= s < 32768)%Z) samples ->
  decodeInt16 (encodeInt16 samples) = samples.
Proof.
  induction 1 as [|s r Hs _ IH]; simpl; [reflexivity|].
  now rewrite int16_of_bytes_of_int16, IH.
Qed.

End Samples.

(** ** Comparisons of numbers *)

Section Numbers.

Lemma Prim2SF_nan : Prim2SF nan = S754_nan.
Proof. reflexivity. Qed.

Lemma ltb_nan_l (x : float) : PrimFloat.ltb nan x = false.
Proof. rewrite FloatAxioms.ltb_spec, Prim2SF_nan. reflexivity. Qed.

Lemma ltb_nan_r (x : float) : PrimFloat.ltb x nan = false.
Proof. rewrite FloatAxioms.ltb_spec, Prim2SF_nan. now destruct (Prim2SF x). Qed.

(** Nothing compares above [undefined]. *)
Lemma gt_undefined (x : float) : Js.gt x (Js.ToNumber Js.undefined) = false.
Proof. apply ltb_nan_l. Qed.

Lemma is_nan_spec (x : float) :
  PrimFloat.is_nan x = true <-> Prim2SF x = S754_nan.
Proof.
  unfold PrimFloat.is_nan. rewrite FloatAxioms.eqb_spec.
  destruct (Prim2SF x) as [s|s| |s m e]; cbn.
  - split; discriminate.
  - destruct s; split; discriminate.
  - split; reflexivity.
  - unfold SFeqb, SFcompare.
    destruct s; rewrite Z.compare_refl, Pos.compare_cont_refl;
      split; discriminate.
Qed.

(** The gate threshold [Math.max(x, 100)] is never below zero: the number
    0 does not compare above it, whatever [x] is. *)
Lemma zero_not_above_gate (x : float) :
  Js.gt 0%float (Js.Math_max x 100%float) = false.
Proof.
  unfold Js.gt, Js.Math_max.
  destruct (PrimFloat.is_nan x) eqn:Hnan; [reflexivity|].
  change (PrimFloat.is_nan 100) with false. cbn [orb].
  destruct (PrimFloat.ltb x 100) eqn:Hlt; [reflexivity|].
  assert (Hx : PrimFloat.ltb x 0 = false).
  { assert (Hn : Prim2SF x <> S754_nan)
      by (intros E; apply is_nan_spec in E; congruence).
    rewrite FloatAxioms.ltb_spec in Hlt |- *.
    change (Prim2SF 100) with (S754_finite false 7036874417766400 (-46)) in Hlt.
    change (Prim2SF 0) with (S754_zero false).
    destruct (Prim2SF x) as [s|s| |s m e]; try congruence;
      destruct s; try discriminate; reflexivity. }
  destruct (PrimFloat.ltb 100 x); [exact Hx|].
  destruct (PrimFloat.is_zero x && PrimFloat.get_sign x); [reflexivity | exact Hx].
Qed.

End Numbers.

(** ** Noise gate *)

Section NoiseGate.

Lemma maxAbs_nonneg samples : (0 <= maxAbs samples)%Z.
Proof. induction samples; simpl; lia. Qed.

Lemma maxAmplitudeLoop_from samples : forall m, (0 <= m)%Z ->
  fold_left
    (fun maxAmplitude sample =>
       let amplitude := Z.abs sample in
       if (maxAmplitude <? amplitude)%Z then amplitude else maxAmplitude)
    samples m
  = Z.max m (maxAbs samples).
Proof.
  induction samples as [|s r IH]; intros m Hm; simpl.
  - lia.
  - pose proof (maxAbs_nonneg r).
    destruct (Z.ltb_spec m (Z.abs s)); rewrite IH; lia.
Qed.

(** The first loop finds the peak amplitude of the frame. *)
Lemma maxAmplitudeLoop_maxAbs samples : maxAmplitudeLoop samples = maxAbs samples.
Proof.
  unfold maxAmplitudeLoop. rewrite maxAmplitudeLoop_from by lia.
  pose proof (maxAbs_nonneg samples). lia.
Qed.

(** The second loop gates every sample and remembers whether one passed. *)
Lemma gateLoop_spec g samples : forall has,
  gateLoop g samples has = (gated g samples, has || existsb (aboveGate g) samples).
Proof.
  induction samples as [|s r IH]; intros has; simpl.
  - now rewrite orb_false_r.
  - destruct (aboveGate g s); rewrite IH; simpl; [|reflexivity].
    now rewrite orb_true_r.
Qed.

Lemma gated_range g samples :
  Forall (fun s => (-32768 <= s < 32768)%Z) samples ->
  Forall (fun s => (-32768 <= s < 32768)%Z) (gated g samples).
Proof.
  induction 1 as [|s r Hs _ IH]; simpl; constructor; auto.
  destruct (aboveGate g s); lia.
Qed.

(** What [preprocessAudio] computes when the sample view exists. *)
Lemma preprocessAudio_aligned config audioBuffer :
  Nat.even (byteOffset audioBuffer) = true ->
  let samples := decodeInt16 (bytes audioBuffer) in
  let g := gateThresholdOf (noiseThreshold config) (maxAbs samples) in
  preprocessAudio config audioBuffer
  = if existsb (aboveGate g) samples then encodeInt16 (gated g samples) else [].
Proof.
  intros Hal. unfold preprocessAudio, Int16Array_view. rewrite Hal.
  rewrite maxAmplitudeLoop_maxAbs, gateLoop_spec. simpl.
  now destruct (existsb _ _).
Qed.

Lemma aboveGate_zero x : aboveGate (Js.Math_max x 100%float) 0 = false.
Proof. apply zero_not_above_gate. Qed.

Lemma existsb_aboveGate_zeros x samples :
  Forall (fun s => s = 0%Z) samples ->
  existsb (aboveGate (Js.Math_max x 100%float)) samples = false.
Proof.
  induction 1 as [|s r -> _ IH]; simpl; [reflexivity|].
  now rewrite aboveGate_zero, IH.
Qed.

Lemma even_length_halves (bs : Bytes) :
  Nat.even (length bs) = true -> 2 * (length bs / 2) = length bs.
Proof.
  intros H. apply Nat.even_spec in H. destruct H as [k Hk]. rewrite Hk.
  rewrite (Nat.mul_comm 2 k), Nat.div_mul by lia. lia.
Qed.

End NoiseGate.

(** C2.  For a frame of 16-bit little-endian samples (a view at an even
    offset over an even number of bytes), with [gateThreshold] the number
    [Math.max(maxAmplitude * noiseThreshold, 100)] and [maxAmplitude] the
    largest absolute sample value of that frame: when some sample is above
    the threshold the output is the whole frame, each sample kept if its
    absolute value is above the threshold and zero otherwise; the output is
    empty exactly when no sample is above the threshold; and a frame of
    zero samples always gives the empty output. *)
Theorem preprocessAudio_gates_samples
    (config : TwilioAudioProcessorConfig) (audioBuffer : NodeBuffer) :
  Nat.even (byteOffset audioBuffer) = true ->
  Nat.even (length (bytes audioBuffer)) = true ->
  let samples := decodeInt16 (bytes audioBuffer) in
  let maxAmplitude := maxAbs samples in
  let gateThreshold :=
    Js.Math_max (Js.mul (Js.of_Z maxAmplitude) (Js.ToNumber (noiseThreshold config)))
      100%float in
  let above := fun sample => Js.gt (Js.of_Z (Z.abs sample)) gateThreshold in
  let out := preprocessAudio config audioBuffer in
  (existsb above samples = true ->
     length out = length (bytes audioBuffer) /\
     decodeInt16 out = map (fun sample => if above sample then sample else 0%Z) samples) /\
  (out = [] <-> existsb above samples = false) /\
  (Forall (fun sample => sample = 0%Z) samples -> out = []).
Proof.
  intros Hal Hev samples maxAmplitude gateThreshold above out.
  assert (Hout : out = if existsb above samples
                       then encodeInt16 (gated gateThreshold samples) else [])
    by (apply preprocessAudio_aligned; exact Hal).
  split; [|split].
  - intros Hex. rewrite Hout, Hex. split.
    + unfold gated. rewrite length_encodeInt16, length_map.
      unfold samples. rewrite length_decodeInt16. now apply even_length_halves.
    + apply decode_encodeInt16, gated_range, decodeInt16_range.
  - rewrite Hout. destruct (existsb above samples) eqn:Hex.
    + split; [|discriminate]. intros Hnil.
      apply (f_equal (@length _)) in Hnil.
      rewrite length_encodeInt16 in Hnil. unfold gated in Hnil.
      rewrite length_map in Hnil.
      destruct samples; [discriminate Hex | simpl in Hnil; lia].
    + split; reflexivity.
  - intros Hzero. rewrite Hout.
    change (existsb above samples) with (existsb (aboveGate gateThreshold) samples).
    unfold gateThreshold. now rewrite existsb_aboveGate_zeros.
Qed.

(** On the frame of samples 4096 and 5 the gate keeps the first and zeroes
    the second. *)
Lemma preprocessAudio_gates_samples_witness :
  length (preprocessAudio referenceConfig loudQuietFrame) = 4 /\
  decodeInt16 (preprocessAudio referenceConfig loudQuietFrame) = [4096%Z; 0%Z].
Proof.
  exact (proj1 (preprocessAudio_gates_samples referenceConfig loudQuietFrame
                  eq_refl eq_refl) eq_refl).
Defined.




(** A frame of odd byte length is not a processing failure: the sample
    view is built over the whole samples, here the first two bytes, and the
    gate returns those gated. *)
Lemma preprocessAudio_odd_length_not_returned :
  Nat.odd (length (bytes oddFrame)) = true /\
  Int16Array_view oddFrame = Some [4096%Z] /\
  preprocessAudio referenceConfig oddFrame = [Byte.x00; Byte.x10] /\
  preprocessAudio referenceConfig oddFrame <> bytes oddFrame.
Proof. repeat split; discriminate. Qed.

(** C9 as stated fails: on three bytes holding one loud sample the output
    has two bytes, neither none nor the three of the input. *)
Lemma preprocessAudio_odd_length_shortened :
  length (bytes oddFrame) = 3 /\
  length (preprocessAudio referenceConfig oddFrame) = 2.
Proof. split; reflexivity. Qed.

(** C9, amended.  The output has no byte, or as many bytes as the input
    rounded down to whole samples; when the sample view cannot be built it
    has exactly the input's bytes.  For an input of even length the output
    length is 0 or the input length. *)
Theorem preprocessAudio_length
    (config : TwilioAudioProcessorConfig) (audioBuffer : NodeBuffer) :
  let out := preprocessAudio config audioBuffer in
  let n := length (bytes audioBuffer) in
  (length out = 0 \/
   length out = if Nat.even (byteOffset audioBuffer) then 2 * (n / 2) else n) /\
  (if Nat.even n then length out = 0 \/ length out = n
   else length out = 0 \/ length out = n - 1 \/ length out = n).
Proof.
  intros out n.
  assert (H : length out = 0 \/
              length out = if Nat.even (byteOffset audioBuffer) then 2 * (n / 2) else n).
  { destruct (Nat.even (byteOffset audioBuffer)) eqn:Hal.
    - unfold out. rewrite preprocessAudio_aligned by exact Hal.
      destruct (existsb _ _); [right | left; reflexivity].
      unfold gated. now rewrite length_encodeInt16, length_map, length_decodeInt16.
    - right. unfold out, preprocessAudio, Int16Array_view. now rewrite Hal. }
  split; [exact H|].
  destruct (Nat.even n) eqn:Hn.
  - apply even_length_halves in Hn. fold n in Hn.
    destruct (Nat.even (byteOffset audioBuffer)); lia.
  - assert (Hodd : 2 * (n / 2) = n - 1).
    { rewrite <- Nat.negb_odd in Hn. apply negb_false_iff, Nat.odd_spec in Hn.
      destruct Hn as [k Hk]. rewrite Hk.
      replace (2 * k + 1) with (1 + k * 2) by lia.
      rewrite Nat.div_add by lia. simpl. lia. }
    destruct (Nat.even (byteOffset audioBuffer)); lia.
Qed.

(** ** Session state and the inbound path *)

Section Session.

Implicit Types (config : TwilioAudioProcessorConfig) (st : State)
  (connection : WebSocket) (data : TwilioData).

(** With [minChunkSize] left undefined the size test fails and the [try]
    block ends without touching the buffer or the socket. *)
Lemma handleMediaBody_undefined config m connection inBuffer :
  minChunkSize config = Js.undefined ->
  handleMediaBody config m connection inBuffer = Some (inBuffer, connection).
Proof.
  intros Hmin. unfold handleMediaBody. rewrite Hmin.
  destruct (payload m); [|reflexivity].
  now rewrite gt_undefined.
Qed.

Lemma handleMediaEvent_undefined config data connection st :
  minChunkSize config = Js.undefined ->
  exists st',
    handleMediaEvent config data connection st = Some (st', connection) /\
    inBuffer st' = inBuffer st.
Proof.
  intros Hmin. unfold handleMediaEvent.
  destruct (isInbound data && _).
  - destruct (media data) as [m|].
    + rewrite handleMediaBody_undefined by exact Hmin.
      eexists. split; [reflexivity|]. now destruct (hasSeenMedia st).
    + eexists. split; [reflexivity|]. now destruct (hasSeenMedia st).
  - eexists. split; [reflexivity|]. now destruct (hasSeenMedia st).
Qed.

Lemma processMessage_undefined config message connection st :
  minChunkSize config = Js.undefined ->
  exists threw st',
    processMessage config message connection st = Some (threw, st', connection) /\
    (inBuffer st' = inBuffer st \/ inBuffer st' = []).
Proof.
  intros Hmin. destruct message as [[data|]|]; simpl.
  - unfold handleTwilioEvent.
    destruct (String.eqb (event data) "connected");
      [eexists _, _; split; [reflexivity | now left]|].
    destruct (String.eqb (event data) "start");
      [eexists _, _; split; [reflexivity | now left]|].
    destruct (String.eqb (event data) "media").
    { destruct (handleMediaEvent_undefined config data connection st Hmin)
        as (st' & -> & Hbuf).
      eexists _, _; split; [reflexivity | now left]. }
    destruct (String.eqb (event data) "stop");
      eexists _, _; (split; [reflexivity|]); [now right | now left].
  - eexists _, _; split; [reflexivity | now left].
  - eexists _, _; split; [reflexivity | now left].
Qed.

Lemma runSession_undefined config messages : forall frames st,
  minChunkSize config = Js.undefined ->
  inBuffer st = [] ->
  exists st',
    runSession config messages frames st = Some (st', frames) /\
    inBuffer st' = [].
Proof.
  induction messages as [|[message ready] rest IH]; intros frames st Hmin Hbuf; simpl.
  - eauto.
  - destruct (processMessage_undefined config message (mkWebSocket ready frames) st Hmin)
      as (threw & st' & -> & Hbuf').
    simpl. apply IH; [exact Hmin|]. destruct Hbuf'; congruence.
Qed.

(** The [while] loop of [handleMediaEvent] is the extraction until
    [null]: for a positive [bufferSize] it ends, leaves what the
    extraction leaves, and has sent the gated frames that are not empty,
    in order, when the speech peer is open. *)
Lemma drainLoop_extractAll config (Hpos : 0 < bufferSize config) :
  forall fuel connection inBuffer,
    getBufferSize inBuffer < fuel ->
    exists frames rest,
      extractAll fuel (bufferSize config) inBuffer = Some (frames, rest) /\
      drainLoop fuel config connection inBuffer
      = Some (rest,
              mkWebSocket (readyState connection)
                (sent connection ++
                 if isDeepgramReady connection then
                   List.filter (fun processed => 0 <? length processed)
                     (map (fun frame => preprocessAudio config (mkNodeBuffer 0 frame))
                          frames)
                 else [])).
Proof.
  induction fuel as [|fuel IH]; intros connection inBuffer Hfuel; [lia|].
  cbn [extractAll drainLoop].
  destruct (Nat.ltb_spec (getBufferSize inBuffer) (bufferSize config)) as [Hlt|Hge].
  - rewrite extractChunk_none by exact Hlt.
    exists [], inBuffer. split; [reflexivity|].
    destruct connection as [ready frames]. cbn.
    destruct ready; now rewrite app_nil_r.
  - destruct (extractChunk_some _ _ Hpos Hge) as (frame & rest & -> & Hlen & Hcat).
    assert (Hrest : getBufferSize rest < fuel).
    { rewrite !getBufferSize_concat in *.
      apply (f_equal (@length _)) in Hcat. rewrite length_app in Hcat. lia. }
    set (processed := preprocessAudio config (mkNodeBuffer 0 frame)).
    destruct (Nat.ltb_spec 0 (length processed)) as [Hsome|Hnone].
    + destruct (isDeepgramReady connection) eqn:Hready.
      * destruct (IH (send connection processed) rest Hrest)
          as (frames & rest' & -> & ->).
        exists (frame :: frames), rest'. split; [reflexivity|].
        unfold isDeepgramReady in *. cbn [send readyState sent map List.filter] in *.
        rewrite Hready. fold processed.
        destruct (Nat.ltb_spec 0 (length processed)); [|lia].
        now rewrite <- app_assoc.
      * destruct (IH connection rest Hrest) as (frames & rest' & -> & ->).
        exists (frame :: frames), rest'. split; [reflexivity|].
        now rewrite Hready.
    + destruct (IH connection rest Hrest) as (frames & rest' & -> & ->).
      exists (frame :: frames), rest'. split; [reflexivity|].
      cbn [map List.filter]. fold processed.
      destruct (Nat.ltb_spec 0 (length processed)); [lia|]. reflexivity.
Qed.

End Session.

(** C3.  With the configuration the server builds the processor with, the
    test [audioChunk.length > minChunkSize] is false for a fragment of any
    length; so whatever messages a session receives, and whatever the state
    of the speech peer's socket at each of them, every message is processed
    to its end, no fragment is ever in the buffer and no frame is ever sent
    to the speech peer. *)
Theorem server_config_buffers_and_forwards_nothing
    (messages : list (Message * ReadyState)) :
  (forall audioChunk : Bytes,
      Js.gt (Js.of_nat (length audioChunk))
        (Js.ToNumber (minChunkSize Server.audioProcessorConfig)) = false) /\
  (forall (m : Media) (connection : WebSocket) (inBuffer : list Bytes),
      handleMediaBody Server.audioProcessorConfig m connection inBuffer
      = Some (inBuffer, connection)) /\
  exists st,
    runSession Server.audioProcessorConfig messages [] new = Some (st, []) /\
    inBuffer st = [].
Proof.
  split; [|split].
  - intros audioChunk. apply gt_undefined.
  - intros. now apply handleMediaBody_undefined.
  - now apply runSession_undefined.
Qed.

(** C6 as stated fails: after a [stop] message has been processed the
    counter is 1, not 0. *)
Lemma stop_leaves_messageCount_one :
  processMessage referenceConfig (utf8 (Some (mkData "stop" sid_undefined None)))
    (mkWebSocket OPEN []) streamingState
  = Some (false, mkState [] false 1 false sid_null, mkWebSocket OPEN []).
Proof. reflexivity. Qed.

(** C6, amended.  From any state, the [stop] handler clears the buffer and
    both flags, sets [streamSid] to null and the counter to 0; the message is
    then counted like every parsed message, so that once [processMessage]
    has returned [streamSid] is null, the buffer is empty and [messageCount]
    is 1. Nothing is sent. *)
Theorem processMessage_stop
    (config : TwilioAudioProcessorConfig) (sid : StreamSid) (m : option Media)
    (connection : WebSocket) (st : State) :
  handleTwilioEvent config (mkData "stop" sid m) connection st
  = Some (mkState [] false 0 false sid_null, connection) /\
  processMessage config (utf8 (Some (mkData "stop" sid m))) connection st
  = Some (false, mkState [] false 1 false sid_null, connection).
Proof. split; reflexivity. Qed.

(** A [start] message stores the identifier its payload evaluates to. *)
Lemma processMessage_start_stores
    (config : TwilioAudioProcessorConfig) (sid : StreamSid) (m : option Media)
    (connection : WebSocket) (st : State) :
  processMessage config (utf8 (Some (mkData "start" sid m))) connection st
  = Some (false,
          mkState (inBuffer st) (hasSeenMedia st) (messageCount st + 1)
            (isProcessingAudio st) sid,
          connection).
Proof. reflexivity. Qed.

(** C7 as stated fails: a [start] message without a stream identifier
    replaces the stored identifier by [undefined]. *)
Lemma start_without_streamSid_overwrites :
  streamSid streamingState = sid_string "MZ0001" /\
  processMessage referenceConfig (utf8 (Some (mkData "start" sid_undefined None)))
    (mkWebSocket OPEN []) streamingState
  = Some (false, mkState [[Byte.x01; Byte.x02]] true 8 false sid_undefined,
          mkWebSocket OPEN []).
Proof. split; reflexivity. Qed.

(** C7, amended.  A [start] message whose payload has no stream identifier
    stores [undefined], the value of [data.start?.streamSid], in place of the
    stored identifier, and the message is counted; the buffer, both flags and
    the socket are left as they were. *)
Theorem processMessage_start_without_streamSid
    (config : TwilioAudioProcessorConfig) (m : option Media)
    (connection : WebSocket) (st : State) :
  processMessage config (utf8 (Some (mkData "start" sid_undefined m))) connection st
  = Some (false,
          mkState (inBuffer st) (hasSeenMedia st) (messageCount st + 1)
            (isProcessingAudio st) sid_undefined,
          connection).
Proof. apply processMessage_start_stores. Qed.

(** ** JSON text of the responses *)

Section JsonText.

Import Json.







End JsonText.

(** ** Function calls *)

Section FunctionCalls.

Import Server.

Variable engine : Engine.
Variable FUNCTION_MAP : gmap string Handler.

Implicit Types (functionCall : FunctionCall.t) (response : FunctionCallResponse.t).

Lemma placeholder_errorResult (error : string) : placeholder error = errorResult error.
Proof. reflexivity. Qed.

(** A response of the loop echoes the entry. *)
Lemma answers_echo functionCall response :
  answers FUNCTION_MAP functionCall response ->
  FunctionCallResponse.type response = "FunctionCallResponse" /\
  FunctionCallResponse.id response = FunctionCall.id functionCall /\
  FunctionCallResponse.name response = FunctionCall.name functionCall.
Proof. destruct 1; repeat split. Qed.

(** The loop sends a response for an entry exactly when the entry is
    answered with it. *)
Lemma answers_callFunction functionCall response :
  answers FUNCTION_MAP functionCall response ->
  callFunction engine FUNCTION_MAP functionCall = Js.Normal response.
Proof.
  destruct 1 as [fc arguments_ handler result Hargs Hin Hcall
                | fc arguments_ handler Hargs Hin Hcall
                | fc arguments_ Hargs Hin];
    unfold callFunction; cbv zeta; rewrite Hargs, Hin; try rewrite Hcall; reflexivity.
Qed.

Lemma callFunction_Normal functionCall response :
  callFunction engine FUNCTION_MAP functionCall = Js.Normal response ->
  answers FUNCTION_MAP functionCall response.
Proof.
  unfold callFunction.
  destruct (Json.parse _) as [arguments_|] eqn:Hargs; [|discriminate].
  destruct (FUNCTION_MAP !! _) as [handler|] eqn:Hin.
  - destruct (handler arguments_) as [[result| |error]|error] eqn:Hcall;
      try discriminate; intros [= <-].
    + now apply (answers_result _ _ arguments_ handler result).
    + now apply (answers_without_text _ _ arguments_ handler).
  - intros [= <-]. now apply (answers_unknown _ _ arguments_).
Qed.

(** The loop throws at an entry whose arguments are not JSON, whose
    function throws, or whose result [JSON.stringify] throws on. *)
Lemma callFunction_Throw functionCall error rest :
  callFunction engine FUNCTION_MAP functionCall = Js.Throw error ->
  stopsAt engine FUNCTION_MAP (functionCall :: rest) [placeholder error].
Proof.
  unfold callFunction.
  destruct (Json.parse _) as [arguments_|] eqn:Hargs.
  - destruct (FUNCTION_MAP !! _) as [handler|] eqn:Hin; [|discriminate].
    destruct (handler arguments_) as [[result| |e]|e] eqn:Hcall;
      try discriminate; intros [= <-].
    + now apply (stops_at_result _ _ _ _ arguments_ handler).
    + now apply (stops_at_throw _ _ _ _ arguments_ handler).
  - intros [= <-]. now apply stops_at_arguments.
Qed.

Lemma stopsAt_callFunction functionCall rest last :
  stopsAt engine FUNCTION_MAP (functionCall :: rest) last ->
  exists error,
    callFunction engine FUNCTION_MAP functionCall = Js.Throw error /\
    last = [errorResult error].
Proof.
  inversion 1 as [| fc r Hargs | fc r arguments_ handler error Hargs Hin Hcall
                 | fc r arguments_ handler error Hargs Hin Hcall]; subst;
    eexists; (split; [|reflexivity]);
    unfold callFunction; cbv zeta; rewrite Hargs; try rewrite Hin, Hcall; reflexivity.
Qed.


(** An entry that is answered adds its response in front of what the rest
    of the request produces. *)
Lemma handleFunctionCallRequest_cons functionCall response rest :
  callFunction engine FUNCTION_MAP functionCall = Js.Normal response ->
  handleFunctionCallRequest engine FUNCTION_MAP (entries (functionCall :: rest))
  = response :: handleFunctionCallRequest engine FUNCTION_MAP (entries rest).
Proof.
  intros Hcall. unfold handleFunctionCallRequest. simpl. rewrite Hcall.
  destruct (callFunctions engine FUNCTION_MAP rest) as [sent [error|]]; reflexivity.
Qed.

(** An entry that throws leaves the one response of the [catch] block. *)
Lemma handleFunctionCallRequest_throw functionCall error rest :
  callFunction engine FUNCTION_MAP functionCall = Js.Throw error ->
  handleFunctionCallRequest engine FUNCTION_MAP (entries (functionCall :: rest))
  = [errorResult error].
Proof. intros Hcall. unfold handleFunctionCallRequest. simpl. now rewrite Hcall. Qed.

Lemma handleFunctionCallRequest_answers before sent rest :
  Forall2 (answers FUNCTION_MAP) before sent ->
  handleFunctionCallRequest engine FUNCTION_MAP (entries (before ++ rest))
  = sent ++ handleFunctionCallRequest engine FUNCTION_MAP (entries rest).
Proof.
  induction 1 as [|functionCall response before sent Hone _ IH]; [reflexivity|].
  cbn [app].
  now rewrite (handleFunctionCallRequest_cons _ _ _ (answers_callFunction _ _ Hone)), IH.
Qed.

Lemma handleFunctionCallRequest_answered before rest :
  Forall (fun functionCall =>
            exists response,
              callFunction engine FUNCTION_MAP functionCall = Js.Normal response)
         before ->
  exists sent,
    Forall2 (answers FUNCTION_MAP) before sent /\
    handleFunctionCallRequest engine FUNCTION_MAP (entries (before ++ rest))
    = sent ++ handleFunctionCallRequest engine FUNCTION_MAP (entries rest).
Proof.
  induction 1 as [|functionCall before [response Hcall] _ (sent & Hall & IH)].
  - exists []. split; [constructor | reflexivity].
  - exists (response :: sent). split.
    + constructor; [now apply callFunction_Normal | exact Hall].
    + cbn [app]. now rewrite (handleFunctionCallRequest_cons _ _ _ Hcall), IH.
Qed.

(** Every request splits into the entries answered and, when the loop was
    cut short, the entry it stopped at and those never reached. *)
Lemma callFunctions_split functions :
  exists answered pending,
    functions = answered ++ pending /\
    Forall2 (answers FUNCTION_MAP) answered (callFunctions engine FUNCTION_MAP functions).1 /\
    match pending with
    | [] => (callFunctions engine FUNCTION_MAP functions).2 = None
    | functionCall :: _ =>
        exists error,
          callFunction engine FUNCTION_MAP functionCall = Js.Throw error /\
          (callFunctions engine FUNCTION_MAP functions).2 = Some error
    end.
Proof.
  induction functions as [|functionCall rest (answered & pending & Hsplit & Hall & Hend)].
  - exists [], []. simpl. split; [reflexivity|]. split; [constructor | reflexivity].
  - simpl. destruct (callFunction engine FUNCTION_MAP functionCall) as [response|error] eqn:Hcall.
    + exists (functionCall :: answered), pending.
      destruct (callFunctions engine FUNCTION_MAP rest) as [sent thrown]. simpl in *.
      split; [now rewrite Hsplit|]. split; [|exact Hend].
      constructor; [now apply callFunction_Normal | exact Hall].
    + exists [], (functionCall :: rest). simpl.
      split; [reflexivity|]. split; [constructor | eauto].
Qed.

(** Every request has a reading by [answers] and [stopsAt]. *)
Lemma request_answered_then_stopped functions :
  exists answered pending sent last,
    functions = answered ++ pending /\
    Forall2 (answers FUNCTION_MAP) answered sent /\
    stopsAt engine FUNCTION_MAP pending last.
Proof.
  destruct (callFunctions_split functions) as (answered & pending & Hsplit & Hall & Hend).
  destruct pending as [|functionCall rest].
  - exists answered, [], (callFunctions engine FUNCTION_MAP functions).1, [].
    split; [exact Hsplit|]. split; [exact Hall | constructor].
  - destruct Hend as (error & Hcall & _).
    exists answered, (functionCall :: rest),
      (callFunctions engine FUNCTION_MAP functions).1, [placeholder error].
    split; [exact Hsplit|]. split; [exact Hall | now apply callFunction_Throw].
Qed.


Lemma objectLiteral_lookup_own (own : gmap string Handler) (name : string)
    (handler : Handler) :
  own !! name = Some handler ->
  objectLiteral engine own !! name = Some handler.
Proof. intros Hown. unfold objectLiteral. now apply lookup_union_Some_l. Qed.

Lemma objectLiteral_lookup_inherited (own : gmap string Handler) (name : string) :
  own !! name = None ->
  name ∈ objectPrototypeNames ->
  objectLiteral engine own !! name = Some (inheritedMember engine own name).
Proof.
  intros Hown Hinherited. unfold objectLiteral.
  rewrite lookup_union_r by exact Hown.
  apply elem_of_list_to_map_1.
  - rewrite <- list_fmap_compose, list_fmap_id.
    apply (bool_decide_unpack _). vm_compute. exact I.
  - apply list_elem_of_fmap. now exists name.
Qed.

End FunctionCalls.

Import Server.


(** On the table [{}] the names [constructor] and [__proto__] are found as
    well: the first is answered with the arguments it was given, and at the
    second the call throws, what is stored there being no function. *)
Example inherited_names_are_called :
  handleFunctionCallRequest exampleEngine emptyMap
    (entries [FunctionCall.mk "constructor" "call_2" "[1]"])
  = [FunctionCallResponse.mk "FunctionCallResponse" "call_2" "constructor" (Some "[1]")] /\
  map FunctionCallResponse.id
    (handleFunctionCallRequest exampleEngine emptyMap
       (entries [FunctionCall.mk "__proto__" "call_3" "{}"]))
  = ["unknown"].
Proof. split; reflexivity. Qed.



(** The rest of the request of the example is answered as well: the
    responses are three, in the order of the entries. *)
Example unknown_function_between_known :
  map FunctionCallResponse.id
    (handleFunctionCallRequest exampleEngine echoMap
       (entries ([FunctionCall.mk "echo" "call_a" "[1]"]
                 ++ unknownCall :: [FunctionCall.mk "echo" "call_b" "[2]"])))
  = ["call_a"; "call_7"; "call_b"].
Proof. reflexivity. Qed.

(** C5 as stated fails: when the function of an entry throws, the response
    sent carries the placeholder identifiers instead of the entry's, and an
    entry after it gets no response at all. *)
Lemma throwing_handler_placeholder_only :
  FunctionCall.id explodeCall = "call_1" /\
  handleFunctionCallRequest exampleEngine throwingMap (entries [explodeCall])
  = [errorResult "Error: boom"] /\
  map FunctionCallResponse.id
    (handleFunctionCallRequest exampleEngine throwingMap (entries [explodeCall]))
  = ["unknown"] /\
  length (handleFunctionCallRequest exampleEngine throwingMap
            (entries [explodeCall; unknownCall])) = 1.
Proof. repeat split. Qed.

(** C5, amended.  The entries of a request are answered in order up to the
    first entry at which the loop throws.  Let the request be the entries
    [answered] followed by the entries [pending], where each entry of
    [answered] has arguments that are JSON and a function that returns (or a
    name the table does not hold), and where [pending] is empty or begins
    with an entry whose arguments are not JSON, or whose function throws or
    returns a value without a JSON encoding.  Then the responses are exactly:
    one for each entry of [answered], in order, with the entry's [id] and
    [name] and the JSON text of the function's result (of the
    unknown-function error for a name the table does not hold) as content;
    and, when [pending] is not empty, one more response with the identifiers
    [unknown] and the JSON text of an error object as content.  The entries
    of [pending] get no response of their own. *)
Theorem function_calls_answered_until_throw
    (engine : Engine) (FUNCTION_MAP : gmap string Handler)
    (answered pending : list FunctionCall.t)
    (sent last : list FunctionCallResponse.t) :
  Forall2 (answers FUNCTION_MAP) answered sent ->
  stopsAt engine FUNCTION_MAP pending last ->
  handleFunctionCallRequest engine FUNCTION_MAP (entries (answered ++ pending))
  = sent ++ last.
Proof.
  intros Hanswered Hstops.
  rewrite (handleFunctionCallRequest_answers engine _ _ _ _ Hanswered). f_equal.
  destruct pending as [|functionCall rest].
  - inversion Hstops. reflexivity.
  - destruct (stopsAt_callFunction engine _ _ _ _ Hstops) as (error & Hcall & ->).
    now apply handleFunctionCallRequest_throw.
Qed.

Lemma function_calls_answered_until_throw_witness :
  handleFunctionCallRequest exampleEngine echoThrowingMap
    (entries (echoCalls ++ [explodeCall; unknownCall]))
  = [FunctionCallResponse.mk "FunctionCallResponse" "call_a" "echo"
       (Some (Json.stringify (Json.JArray [Json.JNumber "1"])));
     FunctionCallResponse.mk "FunctionCallResponse" "call_b" "echo"
       (Some (Json.stringify (Json.JArray [Json.JNumber "2"])))]
    ++ [placeholder "Error: boom"].
Proof.
  apply (function_calls_answered_until_throw exampleEngine echoThrowingMap
           echoCalls [explodeCall; unknownCall]).
  - constructor; [|constructor; [|constructor]].
    + apply (answers_result _ (FunctionCall.mk "echo" "call_a" "[1]")
               (Json.JArray [Json.JNumber "1"])
               (fun arguments_ => Js.Normal (with_text arguments_))
               (Json.JArray [Json.JNumber "1"])); reflexivity.
    + apply (answers_result _ (FunctionCall.mk "echo" "call_b" "[2]")
               (Json.JArray [Json.JNumber "2"])
               (fun arguments_ => Js.Normal (with_text arguments_))
               (Json.JArray [Json.JNumber "2"])); reflexivity.
  - apply (stops_at_throw _ _ explodeCall [unknownCall] (Json.JObject [])
             (fun _ => Js.Throw "Error: boom") "Error: boom"); reflexivity.
Defined.

(** ** Connection timer *)

Section Timer.

(** Calling [clearTimeout] again changes nothing but the count of calls. *)
Lemma clearTimeout_again (s : Session) :
  clearTimeout (clearTimeout s)
  = mkSession false (S (S (clearTimeoutCalls s))) (twilioClosed s)
      (twilioCloseCalls s) (deepgramCloseCalls s) (configSent s).
Proof. reflexivity. Qed.

(** Once the timer is not pending it never is again: it is set once. *)
Lemma timer_stays_off (events : list Event) : forall s,
  timerPending s = false -> timerPending (run events s) = false.
Proof.
  induction events as [|e rest IH]; intros s Hoff; [exact Hoff|].
  apply IH. destruct e; simpl; try assumption; try reflexivity.
  now rewrite Hoff.
Qed.

(** No handler but those of the speech peer's [open] and of the telephony
    socket's [error] clears the timer. *)
Lemma clearTimeoutCalls_only_open_error (events : list Event) : forall s,
  Forall (fun e => e <> deepgram_open /\ e <> twilio_error) events ->
  clearTimeoutCalls (run events s) = clearTimeoutCalls s.
Proof.
  induction events as [|e rest IH]; intros s Hev; [reflexivity|].
  inversion Hev as [|? ? [Hopen Herr] Hrest]; subst.
  simpl. rewrite IH by exact Hrest.
  destruct e; try congruence; try reflexivity.
  simpl. now destruct (timerPending s).
Qed.

End Timer.

(** C10 on the code: when the telephony socket closes before the speech
    peer has opened, the session is over, [clearTimeout] was never called
    and the timeout is still pending; it runs later and calls [close] on
    the closed socket. *)
Theorem timer_pending_after_early_close :
  twilioClosed (run [twilio_close] (connect false)) = true /\
  timerPending (run [twilio_close] (connect false)) = true /\
  clearTimeoutCalls (run [twilio_close] (connect false)) = 0 /\
  twilioCloseCalls (run [twilio_close; timeout_elapsed] (connect false)) = 1.
Proof. repeat split. Qed.


(** * Further properties of the code *)

(** ** Frame buffer: one extraction, and the loop *)

(** X1.  With a positive [size] and at least [size] bytes buffered, one
    [extractChunk(size)] returns exactly the first [size] buffered bytes and
    leaves exactly the bytes after them, in order, whatever the fragment
    boundaries were. *)
Theorem extractChunk_takes_front (size : nat) (inBuffer : list Bytes) :
  0 < size ->
  size <= getBufferSize inBuffer ->
  exists frame rest,
    extractChunk size inBuffer = (Some frame, rest) /\
    frame = firstn size (concat inBuffer) /\
    concat rest = skipn size (concat inBuffer).
Proof.
  intros Hpos Hsz.
  destruct (extractChunk_some size inBuffer Hpos Hsz) as (frame & rest & Hx & Hlen & Hcat).
  exists frame, rest. split; [exact Hx|].
  rewrite <- Hcat, <- Hlen. split.
  - now rewrite take_app_length.
  - now rewrite drop_app_length.
Qed.

Lemma extractChunk_takes_front_witness :
  exists frame rest,
    extractChunk 3 [[Byte.x01; Byte.x02]; [Byte.x03; Byte.x04]] = (Some frame, rest) /\
    frame = firstn 3 (concat [[Byte.x01; Byte.x02]; [Byte.x03; Byte.x04]]) /\
    concat rest = skipn 3 (concat [[Byte.x01; Byte.x02]; [Byte.x03; Byte.x04]]).
Proof.
  apply (extractChunk_takes_front 3 [[Byte.x01; Byte.x02]; [Byte.x03; Byte.x04]]);
    vm_compute; lia.
Defined.

Lemma length_concat_frames (size : nat) (frames : list Bytes) :
  Forall (fun frame => length frame = size) frames ->
  length (concat frames) = size * length frames.
Proof.
  induction 1 as [|f r Hf _ IH]; simpl; [lia|].
  rewrite length_app, IH, Hf. lia.
Qed.

(** X2.  For a positive [bufferSize], the [while] loop of [handleMediaEvent]
    ends, whatever the state of the socket; the buffer it leaves holds the
    buffered byte count modulo [bufferSize], these being the last bytes
    that were buffered; and it sends at most one frame per [bufferSize]
    bytes that were buffered. *)
Theorem drainLoop_leaves_remainder
    (config : TwilioAudioProcessorConfig) (connection : WebSocket)
    (inBuffer : list Bytes) (fuel : nat) :
  0 < bufferSize config ->
  getBufferSize inBuffer < fuel ->
  exists rest connection',
    drainLoop fuel config connection inBuffer = Some (rest, connection') /\
    getBufferSize rest = getBufferSize inBuffer mod bufferSize config /\
    concat rest
    = skipn (getBufferSize inBuffer - getBufferSize inBuffer mod bufferSize config)
        (concat inBuffer) /\
    length (sent connection')
    <= length (sent connection) + getBufferSize inBuffer / bufferSize config.
Proof.
  intros Hpos Hfuel.
  destruct (drainLoop_extractAll config Hpos fuel connection inBuffer Hfuel)
    as (frames & rest & Hall & ->).
  destruct (extractAll_frames (bufferSize config) Hpos fuel inBuffer Hfuel)
    as (frames' & rest' & Hall' & Hlen & Hcat & Hshort & _).
  rewrite Hall in Hall'. injection Hall' as <- <-.
  pose proof (length_concat_frames _ _ Hlen) as Hframes.
  assert (Htotal : getBufferSize inBuffer
                   = bufferSize config * length frames + getBufferSize rest).
  { rewrite !getBufferSize_concat, <- Hcat, length_app. lia. }
  pose proof (Nat.mod_unique _ _ _ _ Hshort Htotal) as Hmod.
  pose proof (Nat.div_unique _ _ _ _ Hshort Htotal) as Hdiv.
  eexists rest, _. split; [reflexivity|]. split; [exact Hmod|]. split.
  - rewrite <- Hmod, Htotal, <- Hcat.
    replace (bufferSize config * length frames + getBufferSize rest
             - getBufferSize rest) with (length (concat frames)) by lia.
    now rewrite drop_app_length.
  - cbn [sent]. rewrite length_app, <- Hdiv.
    apply Nat.add_le_mono_l.
    destruct (isDeepgramReady connection); [|simpl; lia].
    etransitivity; [apply filter_length_le|]. now rewrite length_map.
Qed.

Lemma drainLoop_leaves_remainder_witness :
  exists rest connection',
    drainLoop 8
      (mkConfig 4 (Js.number 20%float) (Js.number 0x1.47ae147ae147bp-8%float))
      (mkWebSocket OPEN [])
      [[Byte.x00; Byte.x10]; [Byte.x05; Byte.x00; Byte.x07]]
    = Some (rest, connection') /\
    getBufferSize rest = 5 mod 4 /\
    concat rest = skipn (5 - 5 mod 4) [Byte.x00; Byte.x10; Byte.x05; Byte.x00; Byte.x07] /\
    length (sent connection') <= 0 + 5 / 4.
Proof.
  apply (drainLoop_leaves_remainder
           (mkConfig 4 (Js.number 20%float) (Js.number 0x1.47ae147ae147bp-8%float))
           (mkWebSocket OPEN [])
           [[Byte.x00; Byte.x10]; [Byte.x05; Byte.x00; Byte.x07]] 8);
    vm_compute; lia.
Defined.

(** ** The pre-filter of inbound fragments *)

(** X3.  [isValidAudioChunk] accepts a fragment exactly when it has at
    least 20 bytes and one of its first 100 bytes is not zero: a fragment
    whose only non-zero bytes come after the first hundred is rejected. *)
Theorem isValidAudioChunk_spec (audioChunk : Bytes) :
  isValidAudioChunk audioChunk = true <->
  20 <= length audioChunk /\
  exists (i : nat) (b : byte),
    i < 100 /\ audioChunk !! i = Some b /\ b <> Byte.x00.
Proof.
  unfold isValidAudioChunk.
  destruct (Nat.ltb_spec (length audioChunk) 20) as [Hshort|Hlong].
  - split; [discriminate | lia].
  - rewrite existsb_exists. split.
    + intros (b & Hin & Hnz). split; [exact Hlong|].
      apply list_elem_of_In, list_elem_of_lookup in Hin. destruct Hin as [i Hi].
      apply lookup_take_Some in Hi. destruct Hi as [Hi Hlt].
      exists i, b. split; [lia|]. split; [exact Hi|].
      intros ->. discriminate Hnz.
    + intros (_ & i & b & Hi & Hb & Hnz). exists b. split.
      * apply list_elem_of_In, list_elem_of_lookup. exists i.
        apply lookup_take_Some. split; [exact Hb|].
        apply lookup_lt_Some in Hb. lia.
      * destruct (Byte.eqb b Byte.x00) eqn:E; [|reflexivity].
        apply Byte.byte_dec_bl in E. contradiction.
Qed.

Lemma isInbound_false_no_change config data connection st :
  isInbound data = false ->
  handleMediaEvent config data connection st
  = Some (set_hasSeenMedia st true, connection).
Proof.
  intros Htrack. unfold handleMediaEvent. rewrite Htrack. cbn.
  destruct st as [buf seen count busy sid]. now destruct seen.
Qed.

(** X4.  A [media] message whose track is not [inbound] (the echo of what
    the server sent, or no track at all) is counted and remembered as seen,
    and nothing else: the buffer, the stream identifier and the speech
    peer's socket are left as they were, for every configuration. *)
Theorem processMessage_other_track
    (config : TwilioAudioProcessorConfig) (sid : StreamSid) (m : option Media)
    (connection : WebSocket) (st : State) :
  isInbound (mkData "media" sid m) = false ->
  processMessage config (utf8 (Some (mkData "media" sid m))) connection st
  = Some (false,
          mkState (inBuffer st) true (messageCount st + 1) (isProcessingAudio st)
            (streamSid st),
          connection).
Proof.
  intros Htrack. unfold processMessage, handleTwilioEvent. cbn [event String.eqb Ascii.eqb Bool.eqb].
  change (String.eqb "media" "connected") with false.
  change (String.eqb "media" "start") with false.
  change (String.eqb "media" "media") with true. cbn iota.
  now rewrite isInbound_false_no_change.
Qed.

Lemma processMessage_other_track_witness :
  processMessage referenceConfig
    (utf8 (Some (mkData "media" sid_undefined
                   (Some (mkMedia (Some "outbound") (Some [Byte.x01]))))))
    (mkWebSocket OPEN []) streamingState
  = Some (false,
          mkState (inBuffer streamingState) true (messageCount streamingState + 1)
            (isProcessingAudio streamingState) (streamSid streamingState),
          mkWebSocket OPEN []).
Proof.
  apply (processMessage_other_track referenceConfig sid_undefined
           (Some (mkMedia (Some "outbound") (Some [Byte.x01])))).
  reflexivity.
Defined.

(** X5.  An inbound fragment that [isValidAudioChunk] rejects (shorter than
    20 bytes, or silent in its first 100 bytes) never enters the buffer and
    nothing is sent for it, whatever [minChunkSize] and the state of the
    socket are. *)
Theorem handleMediaEvent_rejects_invalid
    (config : TwilioAudioProcessorConfig) (data : TwilioData)
    (track : option string) (audioChunk : Bytes)
    (connection : WebSocket) (st : State) :
  media data = Some (mkMedia track (Some audioChunk)) ->
  isValidAudioChunk audioChunk = false ->
  exists st',
    handleMediaEvent config data connection st = Some (st', connection) /\
    inBuffer st' = inBuffer st /\
    streamSid st' = streamSid st.
Proof.
  intros Hmedia Hbad. unfold handleMediaEvent. rewrite Hmedia.
  destruct (isInbound data && _).
  - unfold handleMediaBody. cbn [payload]. rewrite Hbad.
    destruct (Js.gt _ _); eexists; (split; [reflexivity|]);
      now destruct (hasSeenMedia st).
  - eexists. split; [reflexivity|]. now destruct (hasSeenMedia st).
Qed.

Lemma handleMediaEvent_rejects_invalid_witness :
  exists st',
    handleMediaEvent referenceConfig
      (mkData "media" sid_undefined
         (Some (mkMedia (Some "inbound") (Some (repeat Byte.x00 160)))))
      (mkWebSocket OPEN []) streamingState
    = Some (st', mkWebSocket OPEN []) /\
    inBuffer st' = inBuffer streamingState /\
    streamSid st' = streamSid streamingState.
Proof.
  apply (handleMediaEvent_rejects_invalid referenceConfig _ (Some "inbound")
           (repeat Byte.x00 160)); reflexivity.
Defined.

(** ** The inbound path, message by message *)

Section Inbound.

Variable config : TwilioAudioProcessorConfig.
Hypothesis Hpos : 0 < bufferSize config.

Lemma delivered_nothing connection : delivered connection [] = connection.
Proof.
  destruct connection as [ready frames]. unfold delivered. cbn.
  destruct (isDeepgramReady _); now rewrite app_nil_r.
Qed.

Lemma isDeepgramReady_delivered connection frames :
  isDeepgramReady (delivered connection frames) = isDeepgramReady connection.
Proof. reflexivity. Qed.

Lemma preprocessAudio_frame_length (frame : Bytes) :
  length (preprocessAudio config (mkNodeBuffer 0 frame)) = 0 \/
  length (preprocessAudio config (mkNodeBuffer 0 frame)) = 2 * (length frame / 2).
Proof.
  rewrite preprocessAudio_aligned by reflexivity. cbn [bytes].
  destruct (existsb _ _); [right | now left].
  unfold gated. now rewrite length_encodeInt16, length_map, length_decodeInt16.
Qed.

Lemma processed_frames_whole (frames : list Bytes) :
  Forall (fun frame => length frame = bufferSize config) frames ->
  Forall (wholeFrame config)
    (List.filter (fun processed => 0 <? length processed)
       (map (fun frame => preprocessAudio config (mkNodeBuffer 0 frame)) frames)).
Proof.
  induction 1 as [|frame rest Hlen _ IH]; cbn [map List.filter]; [constructor|].
  destruct (Nat.ltb_spec 0 (length (preprocessAudio config (mkNodeBuffer 0 frame))))
    as [Hsome|Hnone]; [|exact IH].
  constructor; [|exact IH]. split; [exact Hsome|].
  destruct (preprocessAudio_frame_length frame) as [H0|H]; [lia|].
  now rewrite H, Hlen.
Qed.

(** The [while] loop: what it leaves and what it hands to the socket do not
    depend on the socket. *)
Lemma drainLoop_result (inBuffer : list Bytes) (fuel : nat) :
  getBufferSize inBuffer < fuel ->
  exists rest frames,
    (forall connection,
        drainLoop fuel config connection inBuffer
        = Some (rest, delivered connection frames)) /\
    getBufferSize rest < bufferSize config /\
    Forall (wholeFrame config) frames.
Proof.
  intros Hfuel.
  destruct (extractAll_frames (bufferSize config) Hpos fuel inBuffer Hfuel)
    as (frames & rest & Hall & Hlen & _ & Hshort & _).
  exists rest. eexists. split; [|split; [exact Hshort|]].
  - intros connection.
    destruct (drainLoop_extractAll config Hpos fuel connection inBuffer Hfuel)
      as (frames' & rest' & Hall' & ->).
    rewrite Hall in Hall'. injection Hall' as <- <-. reflexivity.
  - now apply processed_frames_whole.
Qed.

Lemma handleMediaBody_result (m : Media) (inBuffer : list Bytes) :
  exists inBuffer' frames,
    (forall connection,
        handleMediaBody config m connection inBuffer
        = Some (inBuffer', delivered connection frames)) /\
    (getBufferSize inBuffer < bufferSize config ->
     getBufferSize inBuffer' < bufferSize config) /\
    Forall (wholeFrame config) frames.
Proof.
  unfold handleMediaBody.
  assert (Hsame : exists inBuffer' frames,
             (forall connection : WebSocket,
                 Some (inBuffer, connection)
                 = Some (inBuffer', delivered connection frames)) /\
             (getBufferSize inBuffer < bufferSize config ->
              getBufferSize inBuffer' < bufferSize config) /\
             Forall (wholeFrame config) frames).
  { exists inBuffer, []. split; [|split; [auto | constructor]].
    intros connection. now rewrite delivered_nothing. }
  destruct (payload m) as [audioChunk|]; [|exact Hsame].
  destruct (Js.gt _ _); [|exact Hsame].
  destruct (isValidAudioChunk audioChunk); [|exact Hsame].
  destruct (drainLoop_result (inBuffer ++ [audioChunk])
              (S (getBufferSize (inBuffer ++ [audioChunk]))))
    as (rest & frames & Hrun & Hshort & Hwhole); [lia|].
  exists rest, frames. auto.
Qed.

Lemma handleMediaEvent_result (data : TwilioData) (st : State) :
  exists st' frames,
    (forall connection,
        handleMediaEvent config data connection st
        = Some (st', delivered connection frames)) /\
    (idle config st -> idle config st') /\
    streamSid st' = streamSid st /\
    messageCount st' = messageCount st /\
    Forall (wholeFrame config) frames.
Proof.
  unfold handleMediaEvent.
  set (st1 := if negb (hasSeenMedia st) then set_hasSeenMedia st true else st).
  assert (H1 : inBuffer st1 = inBuffer st /\ isProcessingAudio st1 = isProcessingAudio st /\
               streamSid st1 = streamSid st /\ messageCount st1 = messageCount st)
    by (unfold st1; destruct (hasSeenMedia st); auto).
  destruct H1 as (Hbuf & Hbusy & Hsid & Hcount).
  destruct (isInbound data && negb (isProcessingAudio st1)) eqn:Hgo.
  - destruct (media data) as [m|].
    + destruct (handleMediaBody_result m (inBuffer st1))
        as (inBuffer' & frames & Hrun & Hshort & Hwhole).
      eexists _, frames. split; [|split; [|split; [|split]]].
      * intros connection. rewrite Hrun. reflexivity.
      * intros [Hb _]. split; [|reflexivity]. cbn. apply Hshort. now rewrite Hbuf.
      * cbn. exact Hsid.
      * cbn. exact Hcount.
      * exact Hwhole.
    + eexists _, []. split; [|split; [|split; [|split]]].
      * intros connection. now rewrite delivered_nothing.
      * intros [Hb _]. split; [|reflexivity]. cbn. now rewrite Hbuf.
      * cbn. exact Hsid.
      * cbn. exact Hcount.
      * constructor.
  - exists st1, []. split; [|split; [|split; [|split]]]; auto.
    + intros connection. now rewrite delivered_nothing.
    + intros [Hb Hidle]. split; [now rewrite Hbuf | now rewrite Hbusy].
Qed.

Lemma processMessage_result (message : Message) (st : State) :
  exists threw st' frames,
    (forall connection,
        processMessage config message connection st
        = Some (threw, st', delivered connection frames)) /\
    (idle config st -> idle config st') /\
    Forall (wholeFrame config) frames.
Proof.
  destruct message as [[data|]|]; cbn [processMessage].
  - unfold handleTwilioEvent.
    destruct (String.eqb (event data) "connected").
    { eexists _, _, []. split; [|split; [|constructor]].
      - intros connection. now rewrite delivered_nothing.
      - intros [Hb Hi]. split; assumption. }
    destruct (String.eqb (event data) "start").
    { eexists _, _, []. split; [|split; [|constructor]].
      - intros connection. now rewrite delivered_nothing.
      - intros [Hb Hi]. split; assumption. }
    destruct (String.eqb (event data) "media").
    { destruct (handleMediaEvent_result data st)
        as (st' & frames & Hrun & Hidle & _ & _ & Hwhole).
      eexists _, _, frames. split; [|split; [|exact Hwhole]].
      - intros connection. rewrite Hrun. reflexivity.
      - intros Hi. destruct (Hidle Hi) as [Hb Hbusy]. split; assumption. }
    destruct (String.eqb (event data) "stop").
    { eexists _, _, []. split; [|split; [|constructor]].
      - intros connection. now rewrite delivered_nothing.
      - intros _. split; [exact Hpos | reflexivity]. }
    eexists _, _, []. split; [|split; [|constructor]].
    + intros connection. now rewrite delivered_nothing.
    + intros [Hb Hi]. split; assumption.
  - eexists _, st, []. split; [|split; [auto|constructor]].
    intros connection. now rewrite delivered_nothing.
  - eexists _, st, []. split; [|split; [auto|constructor]].
    intros connection. now rewrite delivered_nothing.
Qed.

Lemma runSession_result (messages : list (Message * ReadyState)) :
  forall frames st,
    idle config st ->
    Forall (wholeFrame config) frames ->
    exists st' frames',
      runSession config messages frames st = Some (st', frames') /\
      idle config st' /\
      Forall (wholeFrame config) frames'.
Proof.
  induction messages as [|[message ready] rest IH]; intros frames st Hidle Hwhole.
  - exists st, frames. auto.
  - cbn [runSession].
    destruct (processMessage_result message st)
      as (threw & st' & extra & Hrun & Hidle' & Hextra).
    rewrite Hrun. apply IH; [now apply Hidle'|].
    unfold delivered. cbn. apply Forall_app. split; [exact Hwhole|].
    now destruct ready.
Qed.

End Inbound.

(** X6.  For a positive [bufferSize], every message of a session is
    processed to its end, whatever the messages and the state of the speech
    peer's socket at each of them; after each one the processor is idle
    ([isProcessingAudio] is false) and holds fewer than [bufferSize] bytes:
    the buffer does not grow while the speech peer is not open. *)
Theorem runSession_idle_and_bounded
    (config : TwilioAudioProcessorConfig) (messages : list (Message * ReadyState)) :
  0 < bufferSize config ->
  exists st frames,
    runSession config messages [] new = Some (st, frames) /\
    getBufferSize (inBuffer st) < bufferSize config /\
    isProcessingAudio st = false.
Proof.
  intros Hpos.
  destruct (runSession_result config Hpos messages [] new) as (st & frames & Hrun & Hidle & _).
  - split; [exact Hpos | reflexivity].
  - constructor.
  - exists st, frames. destruct Hidle. auto.
Qed.

Lemma runSession_idle_and_bounded_witness :
  exists st frames,
    runSession smallConfig
      [(utf8 (Some loudMediaEvent), OPEN); (utf8 (Some loudMediaEvent), CLOSED)] [] new
    = Some (st, frames) /\
    getBufferSize (inBuffer st) < bufferSize smallConfig /\
    isProcessingAudio st = false.
Proof.
  apply (runSession_idle_and_bounded smallConfig
           [(utf8 (Some loudMediaEvent), OPEN); (utf8 (Some loudMediaEvent), CLOSED)]).
  vm_compute. lia.
Defined.

(** X7.  For a positive [bufferSize], every frame sent to the speech peer
    in a session is non-empty and has [bufferSize] bytes rounded down to
    whole 16-bit samples: exactly [bufferSize] bytes when that is even. *)
Theorem runSession_sends_whole_frames
    (config : TwilioAudioProcessorConfig) (messages : list (Message * ReadyState)) :
  0 < bufferSize config ->
  exists st frames,
    runSession config messages [] new = Some (st, frames) /\
    Forall (fun frame =>
              0 < length frame /\
              length frame = 2 * (bufferSize config / 2) /\
              (Nat.even (bufferSize config) = true -> length frame = bufferSize config))
           frames.
Proof.
  intros Hpos.
  destruct (runSession_result config Hpos messages [] new) as (st & frames & Hrun & _ & Hwhole).
  - split; [exact Hpos | reflexivity].
  - constructor.
  - exists st, frames. split; [exact Hrun|].
    eapply Forall_impl; [exact Hwhole|].
    intros frame [Hne Hlen]. split; [exact Hne|]. split; [exact Hlen|].
    intros Heven. rewrite Hlen.
    apply Nat.even_spec in Heven. destruct Heven as [k ->].
    rewrite (Nat.mul_comm 2 k), Nat.div_mul by lia. lia.
Qed.

Lemma runSession_sends_whole_frames_witness :
  exists st frames,
    runSession smallConfig
      [(utf8 (Some loudMediaEvent), OPEN); (utf8 (Some loudMediaEvent), CLOSED)] [] new
    = Some (st, frames) /\
    Forall (fun frame =>
              0 < length frame /\
              length frame = 2 * (bufferSize smallConfig / 2) /\
              (Nat.even (bufferSize smallConfig) = true ->
               length frame = bufferSize smallConfig))
           frames.
Proof.
  apply (runSession_sends_whole_frames smallConfig
           [(utf8 (Some loudMediaEvent), OPEN); (utf8 (Some loudMediaEvent), CLOSED)]).
  vm_compute. lia.
Defined.



Example runSession_loud_then_closed :
  runSession smallConfig
    [(utf8 (Some loudMediaEvent), OPEN); (utf8 (Some loudMediaEvent), CLOSED)] [] new
  = Some (mkState [] true 2 false sid_null,
          [[Byte.x00; Byte.x10; Byte.x00; Byte.x00]]).
Proof. vm_compute. reflexivity. Qed.

(** ** The noise gate's floor and the undefined threshold *)

Section GateFloor.

(** The number 100 as the comparisons see it. *)
Lemma Prim2SF_100 : Prim2SF 100%float = S754_finite false 7036874417766400 (-46).
Proof. reflexivity. Qed.

Lemma SFltb_finite_trans (m e m1 e1 m2 e2 : _) :
  SFltb (S754_finite false m e) (S754_finite false m1 e1) = false ->
  SFltb (S754_finite false m1 e1) (S754_finite false m2 e2) = false ->
  SFltb (S754_finite false m e) (S754_finite false m2 e2) = false.
Proof.
  unfold SFltb, SFcompare. rewrite !Pos.compare_cont_spec. cbn [Pos.switch_Eq].
  destruct (Z.compare_spec e e1), (Z.compare_spec e1 e2), (Z.compare_spec e e2);
    subst; try lia; try discriminate; try reflexivity.
  destruct (Pos.compare_spec m m1), (Pos.compare_spec m1 m2), (Pos.compare_spec m m2);
    subst; try lia; try discriminate; reflexivity.
Qed.

(** A number that is not below 100 is not below a number that 100 is not
    below. *)
Lemma SFltb_floor (sx sf : spec_float) :
  sx <> S754_nan ->
  SFltb sx (Prim2SF 100%float) = false ->
  sf = S754_zero false \/
  (exists m e, sf = S754_finite false m e /\ SFltb (Prim2SF 100%float) sf = false) ->
  SFltb sx sf = false.
Proof.
  rewrite Prim2SF_100. intros Hnan Hx Hf.
  destruct sx as [s|s| |s m e]; try congruence;
    destruct s; try discriminate Hx;
    destruct Hf as [->|(m2 & e2 & -> & Hf)]; try reflexivity.
  eapply SFltb_finite_trans; eassumption.
Qed.

(** The amplitudes up to 100, converted and compared one by one. *)
Lemma small_amplitudes_checked :
  forallb
    (fun k =>
       match Prim2SF (Js.of_Z (Z.of_nat k)) with
       | S754_zero false => true
       | S754_finite false m e =>
           negb (SFltb (Prim2SF 100%float) (S754_finite false m e))
       | _ => false
       end)
    (seq 0 101) = true.
Proof. vm_compute. reflexivity. Qed.

Lemma small_amplitude (a : Z) :
  (0 <= a <= 100)%Z ->
  Prim2SF (Js.of_Z a) = S754_zero false \/
  (exists m e, Prim2SF (Js.of_Z a) = S754_finite false m e /\
               SFltb (Prim2SF 100%float) (Prim2SF (Js.of_Z a)) = false).
Proof.
  intros Ha. pose proof small_amplitudes_checked as Hall.
  rewrite forallb_forall in Hall.
  specialize (Hall (Z.to_nat a)). rewrite Z2Nat.id in Hall by lia.
  assert (Hin : In (Z.to_nat a) (seq 0 101)) by (apply in_seq; lia).
  specialize (Hall Hin).
  destruct (Prim2SF (Js.of_Z a)) as [[]|[]| |[] m e]; try discriminate Hall.
  - now left.
  - right. exists m, e. split; [reflexivity|]. now apply negb_true_iff.
Qed.

(** No amplitude up to 100 compares above the gate threshold. *)
Lemma not_above_floor (x : float) (a : Z) :
  (0 <= a <= 100)%Z ->
  Js.gt (Js.of_Z a) (Js.Math_max x 100%float) = false.
Proof.
  intros Ha. pose proof (small_amplitude a Ha) as Hsmall.
  assert (H100 : PrimFloat.ltb 100 (Js.of_Z a) = false).
  { rewrite FloatAxioms.ltb_spec.
    destruct Hsmall as [->|(m & e & _ & H)]; [reflexivity | exact H]. }
  unfold Js.gt, Js.Math_max.
  destruct (PrimFloat.is_nan x) eqn:Hnan; [apply ltb_nan_l|].
  change (PrimFloat.is_nan 100) with false. cbn [orb].
  destruct (PrimFloat.ltb x 100) eqn:Hlt; [exact H100|].
  assert (Hx : PrimFloat.ltb x (Js.of_Z a) = false).
  { rewrite FloatAxioms.ltb_spec in Hlt |- *.
    apply SFltb_floor; [|exact Hlt|exact Hsmall].
    intros E. apply is_nan_spec in E. congruence. }
  destruct (PrimFloat.ltb 100 x); [exact Hx|].
  destruct (PrimFloat.is_zero x && PrimFloat.get_sign x); [exact H100 | exact Hx].
Qed.

Lemma aboveGate_floor (x : float) (sample : Z) :
  aboveGate (Js.Math_max x 100%float) sample = true -> (100 < Z.abs sample)%Z.
Proof.
  intros Habove. destruct (Z.le_gt_cases (Z.abs sample) 100) as [Hle|Hgt]; [|lia].
  unfold aboveGate in Habove. rewrite not_above_floor in Habove by lia. discriminate.
Qed.

(** A product with NaN is NaN, and so is the larger of it and 100. *)
Lemma mul_nan (x : float) : PrimFloat.is_nan (Js.mul x nan) = true.
Proof.
  apply is_nan_spec. unfold Js.mul.
  rewrite FloatAxioms.mul_spec, Prim2SF_nan. unfold SF64mul, SFmul.
  now destruct (Prim2SF x) as [[]|[]| |[] m e].
Qed.

Lemma gateThresholdOf_undefined (maxAmplitude : Z) :
  gateThresholdOf Js.undefined maxAmplitude = nan.
Proof.
  unfold gateThresholdOf, Js.Math_max. cbn [Js.ToNumber].
  now rewrite mul_nan.
Qed.

Lemma gated_lookup (g : float) (samples : list Z) : forall i : nat,
  gated g samples !! i
  = (fun sample => if aboveGate g sample then sample else 0%Z) <$> samples !! i.
Proof.
  induction samples as [|sample rest IH]; intros [|i]; cbn; auto.
Qed.

End GateFloor.

(** X9.  The floor of the gate: whatever the threshold ratio and the rest
    of the frame, a sample of amplitude at most 100 never passes.  For a
    frame viewed at an even offset: if every sample has amplitude at most
    100 the output is empty; a non-empty output has zero at each position
    where the input amplitude was at most 100, and holds a sample of
    amplitude above 100. *)
Theorem preprocessAudio_floor
    (config : TwilioAudioProcessorConfig) (audioBuffer : NodeBuffer) :
  Nat.even (byteOffset audioBuffer) = true ->
  let samples := decodeInt16 (bytes audioBuffer) in
  let out := preprocessAudio config audioBuffer in
  (Forall (fun sample => (Z.abs sample <= 100)%Z) samples -> out = []) /\
  (out <> [] ->
   (exists sample, In sample (decodeInt16 out) /\ (100 < Z.abs sample)%Z) /\
   forall (i : nat) (sample : Z),
     samples !! i = Some sample -> (Z.abs sample <= 100)%Z ->
     decodeInt16 out !! i = Some 0%Z).
Proof.
  intros Hal samples out.
  assert (Hout : out = if existsb (aboveGate (gateThresholdOf (noiseThreshold config) (maxAbs samples))) samples
                       then encodeInt16 (gated (gateThresholdOf (noiseThreshold config) (maxAbs samples)) samples)
                       else [])
    by (apply preprocessAudio_aligned; exact Hal).
  set (g := gateThresholdOf (noiseThreshold config) (maxAbs samples)) in *.
  split.
  - intros Hsmall. rewrite Hout.
    destruct (existsb (aboveGate g) samples) eqn:Hex; [|reflexivity].
    apply existsb_exists in Hex. destruct Hex as (sample & Hin & Habove).
    rewrite Forall_forall in Hsmall. apply list_elem_of_In in Hin.
    specialize (Hsmall sample Hin).
    apply aboveGate_floor in Habove. lia.
  - intros Hne. rewrite Hout in Hne |- *.
    destruct (existsb (aboveGate g) samples) eqn:Hex; [|congruence].
    rewrite decode_encodeInt16 by apply gated_range, decodeInt16_range.
    split.
    + apply existsb_exists in Hex. destruct Hex as (sample & Hin & Habove).
      exists sample. split; [|now apply aboveGate_floor in Habove].
      unfold gated. apply in_map_iff. exists sample. now rewrite Habove.
    + intros i sample Hi Hsmall.
      assert (Hzero : aboveGate g sample = false).
      { destruct (aboveGate g sample) eqn:Habove; [|reflexivity].
        apply aboveGate_floor in Habove. lia. }
      rewrite gated_lookup, Hi.
      change (Some (if aboveGate g sample then sample else 0%Z) = Some 0%Z).
      now rewrite Hzero.
Qed.

Lemma preprocessAudio_floor_witness :
  (Forall (fun sample => (Z.abs sample <= 100)%Z) (decodeInt16 (bytes loudQuietFrame)) ->
   preprocessAudio referenceConfig loudQuietFrame = []) /\
  (preprocessAudio referenceConfig loudQuietFrame <> [] ->
   (exists sample,
       In sample (decodeInt16 (preprocessAudio referenceConfig loudQuietFrame)) /\
       (100 < Z.abs sample)%Z) /\
   forall (i : nat) (sample : Z),
     decodeInt16 (bytes loudQuietFrame) !! i = Some sample -> (Z.abs sample <= 100)%Z ->
     decodeInt16 (preprocessAudio referenceConfig loudQuietFrame) !! i = Some 0%Z).
Proof.
  apply (preprocessAudio_floor referenceConfig loudQuietFrame). reflexivity.
Defined.

(** X10.  With [noiseThreshold] left undefined the gate threshold is NaN
    and no sample compares above it: every frame viewed at an even offset,
    however loud, comes out empty.  This is the case of the configuration
    the server builds. *)
Theorem preprocessAudio_undefined_threshold
    (config : TwilioAudioProcessorConfig) (audioBuffer : NodeBuffer) :
  noiseThreshold config = Js.undefined ->
  Nat.even (byteOffset audioBuffer) = true ->
  preprocessAudio config audioBuffer = [].
Proof.
  intros Hthr Hal. rewrite preprocessAudio_aligned by exact Hal.
  rewrite Hthr, gateThresholdOf_undefined.
  assert (Hnone : forall samples, existsb (aboveGate nan) samples = false).
  { induction samples as [|sample rest IH]; [reflexivity|].
    cbn [existsb]. rewrite IH. unfold aboveGate, Js.gt. now rewrite ltb_nan_l. }
  now rewrite Hnone.
Qed.

Lemma preprocessAudio_undefined_threshold_witness :
  preprocessAudio Server.audioProcessorConfig loudQuietFrame = [].
Proof.
  apply (preprocessAudio_undefined_threshold Server.audioProcessorConfig loudQuietFrame);
    reflexivity.
Defined.

(** ** Stream identifier and message counter *)

(** X11.  For a positive [bufferSize], a parsed message whose event is
    neither [start] nor [stop] ([connected], [media], anything else) is
    processed to its end without an exception, leaves the stream identifier
    as it was and adds exactly one to the message counter. *)
Theorem processMessage_keeps_streamSid
    (config : TwilioAudioProcessorConfig) (data : TwilioData)
    (connection : WebSocket) (st : State) :
  0 < bufferSize config ->
  event data <> "start" ->
  event data <> "stop" ->
  exists st' connection',
    processMessage config (utf8 (Some data)) connection st
    = Some (false, st', connection') /\
    streamSid st' = streamSid st /\
    messageCount st' = messageCount st + 1.
Proof.
  intros Hpos Hstart Hstop. cbn [processMessage]. unfold handleTwilioEvent.
  destruct (String.eqb (event data) "connected");
    [eexists _, _; split; [reflexivity | split; reflexivity]|].
  destruct (String.eqb_spec (event data) "start") as [|_]; [contradiction|].
  destruct (String.eqb (event data) "media").
  - destruct (handleMediaEvent_result config Hpos data st)
      as (st' & frames & Hrun & _ & Hsid & Hcount & _).
    rewrite Hrun. eexists _, _. split; [reflexivity|]. cbn. split; congruence.
  - destruct (String.eqb_spec (event data) "stop") as [|_]; [contradiction|].
    eexists _, _; split; [reflexivity | split; reflexivity].
Qed.

Lemma processMessage_keeps_streamSid_witness :
  exists st' connection',
    processMessage smallConfig (utf8 (Some loudMediaEvent)) (mkWebSocket OPEN [])
      streamingState
    = Some (false, st', connection') /\
    streamSid st' = streamSid streamingState /\
    messageCount st' = messageCount streamingState + 1.
Proof.
  apply (processMessage_keeps_streamSid smallConfig loudMediaEvent).
  - vm_compute. lia.
  - discriminate.
  - discriminate.
Defined.

(** ** Function calls: how many responses *)

(** X12.  A request whose [functions] member is an array with at least one
    entry is never left without a response and never gets more responses
    than it has entries; one with an empty array gets none; one whose
    [functions] member is missing or cannot be iterated gets exactly one,
    the response of the [catch] block with the error of the loop; so does
    one whose [functions] member is a string that is not empty, with the
    error of decoding the arguments a character does not have, while the
    empty string gets none; and every response has the type
    [FunctionCallResponse]. *)
Theorem handleFunctionCallRequest_count
    (engine : Engine) (FUNCTION_MAP : gmap string Handler) (functions : Functions) :
  match functions with
  | entries requested =>
      length (handleFunctionCallRequest engine FUNCTION_MAP functions)
      <= length requested /\
      (requested <> [] ->
       1 <= length (handleFunctionCallRequest engine FUNCTION_MAP functions))
  | characters text =>
      handleFunctionCallRequest engine FUNCTION_MAP functions
      = if String.eqb text "" then []
        else [placeholder (syntaxErrorText engine "undefined")]
  | not_iterable =>
      handleFunctionCallRequest engine FUNCTION_MAP functions
      = [placeholder (notIterableText engine)]
  end /\
  Forall (fun response => FunctionCallResponse.type response = "FunctionCallResponse")
    (handleFunctionCallRequest engine FUNCTION_MAP functions).
Proof.
  destruct functions as [requested|text|];
    [| split; [reflexivity | cbn; destruct (String.eqb text ""); now repeat constructor]
     | split; [reflexivity | now repeat constructor]].
  destruct (callFunctions_split engine FUNCTION_MAP requested)
    as (answered & pending & Hsplit & Hall & Hend).
  unfold handleFunctionCallRequest.
  destruct (callFunctions engine FUNCTION_MAP requested) as [sent thrown].
  cbn [fst snd] in *.
  assert (Hlen : length sent = length answered)
    by (symmetry; eapply Forall2_length; exact Hall).
  assert (Htypes : Forall (fun response =>
                             FunctionCallResponse.type response = "FunctionCallResponse") sent).
  { clear Hlen Hend Hsplit. induction Hall as [|fc r ? ? Hone _ IH]; constructor; auto.
    now apply answers_echo in Hone. }
  subst requested. rewrite length_app.
  destruct pending as [|functionCall rest].
  - rewrite Hend. split; [|exact Htypes]. split; [lia|].
    rewrite app_nil_r. intros Hne. destruct answered; [congruence | simpl in *; lia].
  - destruct Hend as (error & _ & ->). rewrite length_app. cbn [length].
    split; [split; lia|].
    apply Forall_app. split; [exact Htypes|]. now constructor.
Qed.

(** A request without the member [functions] on the table [{}]. *)
Example handleFunctionCallRequest_not_iterable :
  map FunctionCallResponse.id
    (handleFunctionCallRequest exampleEngine emptyMap not_iterable) = ["unknown"].
Proof. reflexivity. Qed.

(** ** Messages relayed to the telephony peer *)

(** X13.  Whatever the speech peer sends, at most one message goes to the
    telephony peer for it, and that message carries the stream identifier
    stored at that moment; while no identifier is stored (null, undefined
    or the empty string) nothing goes to the telephony peer, raw audio
    included. *)
Theorem onDeepgramMessage_carries_streamSid
    (engine : Engine) (FUNCTION_MAP : gmap string Handler) (data : Bytes)
    (parsed : Relay.Parsed) (st : State) :
  length (Relay.onDeepgramMessage engine FUNCTION_MAP data parsed st).1 <= 1 /\
  Forall (fun m => Relay.truthy (streamSid st) = Some (Relay.streamSidOf m))
    (Relay.onDeepgramMessage engine FUNCTION_MAP data parsed st).1 /\
  (Relay.truthy (streamSid st) = None ->
   (Relay.onDeepgramMessage engine FUNCTION_MAP data parsed st).1 = []).
Proof.
  destruct parsed as [| |[type|] functions|]; cbn;
    unfold Relay.relayAudio;
    try destruct (String.eqb type "UserStartedSpeaking");
    destruct (Relay.truthy (streamSid st)) as [sid|]; cbn;
    repeat split; auto; try lia; try discriminate;
    repeat constructor.
Qed.

(** X14.  The outbound path follows the session: once a [stop] message has
    been processed, raw audio and barge-in signals of the speech peer
    produce nothing for the telephony peer; once a [start] message with a
    non-empty stream identifier has been processed, each raw audio message
    produces exactly one [media] message with its bytes in base64, and each
    barge-in signal exactly one [clear] message, both carrying that
    identifier. *)
Theorem relay_follows_session
    (config : TwilioAudioProcessorConfig) (engine : Engine)
    (FUNCTION_MAP : gmap string Handler)
    (connection : WebSocket) (st : State) (m : option Media)
    (sid : string) (data : Bytes) (functions : Functions) :
  sid <> "" ->
  (exists stopped,
      processMessage config (utf8 (Some (mkData "stop" (sid_string sid) m))) connection st
      = Some (false, stopped, connection) /\
      (Relay.onDeepgramMessage engine FUNCTION_MAP data Relay.not_json stopped).1 = [] /\
      (Relay.onDeepgramMessage engine FUNCTION_MAP data
         (Relay.json_object (Some "UserStartedSpeaking") functions) stopped).1 = []) /\
  (exists started,
      processMessage config (utf8 (Some (mkData "start" (sid_string sid) m))) connection st
      = Some (false, started, connection) /\
      (Relay.onDeepgramMessage engine FUNCTION_MAP data Relay.not_json started).1
      = [Relay.MediaMessage sid (Relay.base64 data)] /\
      (Relay.onDeepgramMessage engine FUNCTION_MAP data
         (Relay.json_object (Some "UserStartedSpeaking") functions) started).1
      = [Relay.ClearMessage sid]).
Proof.
  intros Hsid. split.
  - eexists. split; [reflexivity|]. split; reflexivity.
  - eexists. split; [reflexivity|]. cbn. unfold Relay.relayAudio. cbn.
    destruct (String.eqb_spec sid "") as [|_]; [contradiction|]. split; reflexivity.
Qed.

Lemma relay_follows_session_witness :
  (exists stopped,
      processMessage referenceConfig (utf8 (Some (mkData "stop" (sid_string "MZ0002") None)))
        (mkWebSocket OPEN []) streamingState
      = Some (false, stopped, mkWebSocket OPEN []) /\
      (Relay.onDeepgramMessage exampleEngine emptyMap [Byte.x4d; Byte.x61; Byte.x6e]
         Relay.not_json stopped).1 = [] /\
      (Relay.onDeepgramMessage exampleEngine emptyMap [Byte.x4d; Byte.x61; Byte.x6e]
         (Relay.json_object (Some "UserStartedSpeaking") (entries [])) stopped).1 = []) /\
  (exists started,
      processMessage referenceConfig (utf8 (Some (mkData "start" (sid_string "MZ0002") None)))
        (mkWebSocket OPEN []) streamingState
      = Some (false, started, mkWebSocket OPEN []) /\
      (Relay.onDeepgramMessage exampleEngine emptyMap [Byte.x4d; Byte.x61; Byte.x6e]
         Relay.not_json started).1
      = [Relay.MediaMessage "MZ0002" (Relay.base64 [Byte.x4d; Byte.x61; Byte.x6e])] /\
      (Relay.onDeepgramMessage exampleEngine emptyMap [Byte.x4d; Byte.x61; Byte.x6e]
         (Relay.json_object (Some "UserStartedSpeaking") (entries [])) started).1
      = [Relay.ClearMessage "MZ0002"]).
Proof.
  apply (relay_follows_session referenceConfig exampleEngine emptyMap (mkWebSocket OPEN [])
           streamingState None "MZ0002" [Byte.x4d; Byte.x61; Byte.x6e] (entries [])).
  discriminate.
Defined.

(** ** The connection timer over whole sessions *)

Section TimerTraces.

Lemma run_app (before after : list Event) (s : Session) :
  run (before ++ after) s = run after (run before s).
Proof. unfold run. apply fold_left_app. Qed.

Lemma closeCalls_when_off (events : list Event) : forall s,
  timerPending s = false ->
  twilioCloseCalls (run events s) = twilioCloseCalls s.
Proof.
  induction events as [|e rest IH]; intros s Hoff; [reflexivity|].
  cbn [run fold_left]. fold (run rest (handle s e)).
  rewrite IH.
  - destruct e; cbn; try reflexivity. now rewrite Hoff.
  - destruct e; cbn; try assumption; try reflexivity. now rewrite Hoff.
Qed.

Lemma closeCalls_bound (events : list Event) : forall s,
  twilioCloseCalls (run events s)
  <= twilioCloseCalls s + (if timerPending s then 1 else 0).
Proof.
  induction events as [|e rest IH]; intros s; [cbn; lia|].
  cbn [run fold_left]. fold (run rest (handle s e)).
  etransitivity; [apply IH|].
  destruct s as [pending cleared closed closeCalls dgCloseCalls sentConfig].
  destruct e, pending; cbn; lia.
Qed.

End TimerTraces.

(** X15.  In every session the timeout closes the telephony socket at most
    once, and never once the speech peer has opened or the telephony socket
    has reported an error: whatever follows, the timer has then been
    cleared and its callback does not run. *)
Theorem timeout_closes_at_most_once (setupThrows : bool) (events : list Event) :
  twilioCloseCalls (run events (connect setupThrows)) <= 1 /\
  forall (before after : list Event) (e : Event),
    events = before ++ e :: after ->
    e = deepgram_open \/ e = twilio_error ->
    timerPending (run events (connect setupThrows)) = false /\
    twilioCloseCalls (run events (connect setupThrows))
    = twilioCloseCalls (run before (connect setupThrows)).
Proof.
  split.
  - etransitivity; [apply closeCalls_bound|]. destruct setupThrows; cbn; lia.
  - intros before after e -> He.
    rewrite run_app. cbn [run fold_left].
    fold (run after (handle (run before (connect setupThrows)) e)).
    assert (Hoff : timerPending (handle (run before (connect setupThrows)) e) = false)
      by (destruct He as [-> | ->]; reflexivity).
    split.
    + now apply timer_stays_off.
    + rewrite closeCalls_when_off by exact Hoff.
      destruct He as [-> | ->]; reflexivity.
Qed.

(** ** The call endpoint *)

(** X16.  [handleIniciarLlamada] answers 200, 400 or 500.  Twilio is asked
    for a call only when a customer number, a Twilio number and a
    [websocketUrl] are all present and not empty, at most once, with that
    URL and with the number of the request body where it gives one and the
    number of the environment otherwise.  The answer is 200 only when that
    call was accepted, 400 only when the numbers are there and the URL is
    not, and missing numbers are answered 500 before the URL is looked
    at. *)
Theorem handleIniciarLlamada_contract
    (env : Http.Env) (create : Http.CallParams -> bool) (req : Http.CallBody) :
  let response := (Http.handleIniciarLlamada env create req).1 in
  let calls := (Http.handleIniciarLlamada env create req).2 in
  (Http.status response = 200 \/ Http.status response = 400 \/ Http.status response = 500) /\
  length calls <= 1 /\
  (forall p, In p calls ->
     Http.truthy (Http.websocketUrl req) = Some (Http.url p) /\
     (forall s, Http.truthy (Http.toNumber req) = Some s -> Http.to p = s) /\
     (Http.truthy (Http.toNumber req) = None ->
      Http.truthy (Http.CUSTOMER_PHONE_NUMBER env) = Some (Http.to p)) /\
     (forall s, Http.truthy (Http.fromNumber req) = Some s -> Http.from p = s) /\
     (Http.truthy (Http.fromNumber req) = None ->
      Http.truthy (Http.TWILIO_PHONE_NUMBER env) = Some (Http.from p))) /\
  (Http.status response = 200 -> exists p, calls = [p] /\ create p = true) /\
  (Http.status response = 400 ->
   calls = [] /\ Http.truthy (Http.websocketUrl req) = None /\
   Http.truthy (Http.orElse (Http.toNumber req) (Http.CUSTOMER_PHONE_NUMBER env)) <> None /\
   Http.truthy (Http.orElse (Http.fromNumber req) (Http.TWILIO_PHONE_NUMBER env)) <> None) /\
  (Http.truthy (Http.orElse (Http.toNumber req) (Http.CUSTOMER_PHONE_NUMBER env)) = None \/
   Http.truthy (Http.orElse (Http.fromNumber req) (Http.TWILIO_PHONE_NUMBER env)) = None ->
   Http.status response = 500 /\ calls = []).
Proof.
  unfold Http.handleIniciarLlamada, Http.orElse.
  destruct (Http.truthy (Http.toNumber req)) as [tn|] eqn:Hto;
    destruct (Http.truthy (Http.fromNumber req)) as [fn|] eqn:Hfrom;
    rewrite ?Hto, ?Hfrom;
    destruct (Http.truthy (Http.CUSTOMER_PHONE_NUMBER env)) as [ce|] eqn:Hce;
    destruct (Http.truthy (Http.TWILIO_PHONE_NUMBER env)) as [te|] eqn:Hte;
    destruct (Http.truthy (Http.websocketUrl req)) as [u|] eqn:Hurl;
    try destruct (create _) eqn:Hcreate;
    cbn;
    repeat match goal with |- _ /\ _ => split end;
    first
      [ solve [auto]
      | solve [cbn; lia]
      | solve [intros p Hin; cbn in Hin; try contradiction;
               destruct Hin as [<- | []]; cbn;
               repeat match goal with |- _ /\ _ => split end;
               intros; congruence]
      | solve [intros H; try discriminate H;
               eexists; split; [reflexivity | assumption]]
      | solve [intros H; try discriminate H;
               repeat match goal with |- _ /\ _ => split end;
               congruence]
      | solve [intros [H | H]; try discriminate H; split; reflexivity] ].
Qed.

(** ** Function calls: order, and what follows a failure *)

(** X17.  When no entry of a request throws (the arguments of each are
    JSON and each handler found returns), the responses are as many as the
    entries and echo their [id]s and [name]s in the order of the request. *)
Theorem handleFunctionCallRequest_in_order
    (engine : Engine) (FUNCTION_MAP : gmap string Handler)
    (functions : list FunctionCall.t) :
  Forall (fun functionCall =>
            exists response,
              callFunction engine FUNCTION_MAP functionCall = Js.Normal response)
         functions ->
  map FunctionCallResponse.id
    (handleFunctionCallRequest engine FUNCTION_MAP (entries functions))
  = map FunctionCall.id functions /\
  map FunctionCallResponse.name
    (handleFunctionCallRequest engine FUNCTION_MAP (entries functions))
  = map FunctionCall.name functions.
Proof.
  induction 1 as [|functionCall rest [response Hcall] _ [IHid IHname]].
  - split; reflexivity.
  - rewrite (handleFunctionCallRequest_cons _ _ _ _ _ Hcall). cbn [map].
    rewrite IHid, IHname.
    apply callFunction_Normal, answers_echo in Hcall. destruct Hcall as (_ & -> & ->).
    split; reflexivity.
Qed.

Lemma handleFunctionCallRequest_in_order_witness :
  map FunctionCallResponse.id
    (handleFunctionCallRequest exampleEngine echoMap (entries echoCalls))
  = map FunctionCall.id echoCalls /\
  map FunctionCallResponse.name
    (handleFunctionCallRequest exampleEngine echoMap (entries echoCalls))
  = map FunctionCall.name echoCalls.
Proof.
  apply (handleFunctionCallRequest_in_order exampleEngine echoMap echoCalls).
  repeat constructor; eexists; reflexivity.
Defined.

(** X18.  The entries after one that throws have no effect: the responses
    are those of the entries before it, one each, followed by the single
    response of the [catch] block, whatever entries follow. *)
Theorem handleFunctionCallRequest_stops_at_throw
    (engine : Engine) (FUNCTION_MAP : gmap string Handler)
    (before after : list FunctionCall.t) (functionCall : FunctionCall.t)
    (error : string) :
  Forall (fun earlier =>
            exists response,
              callFunction engine FUNCTION_MAP earlier = Js.Normal response)
         before ->
  callFunction engine FUNCTION_MAP functionCall = Js.Throw error ->
  exists answers,
    length answers = length before /\
    handleFunctionCallRequest engine FUNCTION_MAP
      (entries (before ++ functionCall :: after))
    = answers ++ [errorResult error] /\
    handleFunctionCallRequest engine FUNCTION_MAP
      (entries (before ++ functionCall :: after))
    = handleFunctionCallRequest engine FUNCTION_MAP (entries (before ++ [functionCall])).
Proof.
  intros Hbefore Hthrow.
  assert (Hcut : forall rest,
             handleFunctionCallRequest engine FUNCTION_MAP (entries (functionCall :: rest))
             = [errorResult error]).
  { intros rest. now apply handleFunctionCallRequest_throw. }
  induction Hbefore as [|earlier before [response Hcall] _ (answers & Hlen & Hrun & Hsame)].
  - exists []. cbn [app length]. rewrite !Hcut. auto.
  - exists (response :: answers). cbn [app length].
    rewrite !(handleFunctionCallRequest_cons _ _ _ _ _ Hcall), Hrun.
    split; [now rewrite Hlen|]. split; [reflexivity|].
    now rewrite <- Hsame, Hrun.
Qed.

Lemma handleFunctionCallRequest_stops_at_throw_witness :
  exists answers,
    length answers = length echoCalls /\
    handleFunctionCallRequest exampleEngine echoThrowingMap
      (entries (echoCalls ++ explodeCall :: [unknownCall]))
    = answers ++ [errorResult "Error: boom"] /\
    handleFunctionCallRequest exampleEngine echoThrowingMap
      (entries (echoCalls ++ explodeCall :: [unknownCall]))
    = handleFunctionCallRequest exampleEngine echoThrowingMap
        (entries (echoCalls ++ [explodeCall])).
Proof.
  apply (handleFunctionCallRequest_stops_at_throw exampleEngine echoThrowingMap
           echoCalls [unknownCall] explodeCall "Error: boom").
  - repeat constructor; eexists; reflexivity.
  - reflexivity.
Defined.
